(** * ut0mpmcbq.h: the bounded multi-producer multi-consumer queue of InnoDB

    A shallow embedding of [mpmc_bq<T>] (storage/innobase/include/ut0mpmcbq.h),
    Dmitry Vyukov's bounded MPMC queue, and the proofs of its sequential
    contract.

    Conventions of the embedding:
    - [size_t] is a 64-bit unsigned word, a [Z] in [0, 2^64) with the
      wrap-around written out ([wrap]); [intptr_t] is its two's-complement
      reading ([to_intptr]), and subtraction on it wraps ([intptr_sub]).
    - the ring is a [list Cell] read and written by index; an access outside
      of it is [Undefined].
    - one call runs without interference of other threads.  What the memory
      model leaves open even then, spurious failure of
      [compare_exchange_weak], is an explicit argument of each call: the
      number of times its weak exchange fails spuriously.
    - the [for (;;)] loops run on fuel, one unit per iteration; a call still
      in its loop when the fuel is gone is [Spinning]. *)

From Stdlib Require Import ZArith Lia Bool Znumtheory.
From Stdlib Require String Ascii.
From stdpp Require Import base list.
Import Ascii.AsciiSyntax String.StringSyntax.

Local Open Scope Z_scope.
Delimit Scope string_scope with string.
Delimit Scope char_scope with char.

(** ** Machine words *)

Definition size_max : Z := 2 ^ 64.
Definition intptr_max : Z := 2 ^ 63.

(** Arithmetic on [size_t] is modulo [2^64]. *)
Definition wrap (z : Z) : Z := z mod size_max.

(** [(intptr_t)u]: the two's-complement reading of a word. *)
Definition to_intptr (u : Z) : Z := if u <? intptr_max then u else u - size_max.

(** [a - b] on [intptr_t], wrapping in two's complement. *)
Definition intptr_sub (a b : Z) : Z := to_intptr (wrap (a - b)).

(** [(intptr_t)seq - (intptr_t)pos], the test of all three loops. *)
Definition diff (seq pos : Z) : Z := intptr_sub (to_intptr seq) (to_intptr pos).

(** What a naive implementation would branch on: the unsigned order of the
    two words. *)
Definition unsigned_compare (seq pos : Z) : comparison := seq ?= pos.

(** What the code branches on: the sign of [diff]. *)
Definition signed_compare (seq pos : Z) : comparison := diff seq pos ?= 0.

(** ** Results of a call *)

Inductive result (A : Type) : Type :=
| Ret (a : A)
| Spinning
| Undefined.
Arguments Ret {A} a.
Arguments Spinning {A}.
Arguments Undefined {A}.

Definition bind {A B : Type} (r : result A) (k : A -> result B) : result B :=
  match r with
  | Ret a => k a
  | Spinning => Spinning
  | Undefined => Undefined
  end.

Notation "'let*' p ':=' r 'in' k" := (bind r (fun p => k))
  (at level 10, p pattern, r at level 100, k at level 200).

(** [std::atomic<size_t>::compare_exchange_weak(expected, desired)] on an
    object holding [obj]: the new contents of the object, the new contents of
    [expected], and the returned flag.  A spurious failure behaves as a failed
    comparison: [expected] is reloaded from the object. *)
Definition compare_exchange_weak (spurious : bool) (obj expected desired : Z)
  : Z * Z * bool :=
  if (obj =? expected) && negb spurious then (desired, expected, true)
  else (obj, obj, false).

(** Modelled from the spec: [ut_a] is declared in ut0dbg.h, which is not part
    of the sources at hand; the spec calls its failure a fatal precondition
    violation.  [ut_a cond k] runs [k] when [cond] holds and has no result
    otherwise. *)
Definition ut_a {A : Type} (cond : bool) (k : A) : option A :=
  if cond then Some k else None.

Section Model.

Variable T : Type.

(** [struct Cell]; the payload of a cell that was never written is
    unconstructed storage, [None]. *)
Record Cell : Type := mkCell { m_pos : Z; m_data : option T }.

Record mpmc_bq : Type := mkQueue {
  m_ring : list Cell;
  m_capacity : Z;
  m_enqueue_pos : Z;
  m_dequeue_pos : Z
}.

(** [cell->m_pos.store(v)] and [cell->m_data = data] on [m_ring[i]]. *)
Definition store_pos (ring : list Cell) (i : nat) (v : Z) : list Cell :=
  alter (fun c => mkCell v (m_data c)) i ring.

Definition store_data (ring : list Cell) (i : nat) (data : T) : list Cell :=
  alter (fun c => mkCell (m_pos c) (Some data)) i ring.

(** The index of [m_ring[pos & m_capacity]]. *)
Definition cell_index (q : mpmc_bq) (pos : Z) : nat :=
  Z.to_nat (Z.land pos (m_capacity q)).

Definition set_enqueue_pos (q : mpmc_bq) (v : Z) : mpmc_bq :=
  mkQueue (m_ring q) (m_capacity q) v (m_dequeue_pos q).

Definition set_dequeue_pos (q : mpmc_bq) (v : Z) : mpmc_bq :=
  mkQueue (m_ring q) (m_capacity q) (m_enqueue_pos q) v.

Definition set_ring (q : mpmc_bq) (ring : list Cell) : mpmc_bq :=
  mkQueue ring (m_capacity q) (m_enqueue_pos q) (m_dequeue_pos q).

(** *** Construction *)

(** Modelled from the spec: [UT_NEW_ARRAY_NOKEY] is declared in ut0new.h,
    which is not part of the sources at hand.  It yields storage for
    [n_elems] cells that nothing has initialised: the sequence word of cell
    [i] holds whatever [raw i] was there, and no payload is constructed. *)
Definition UT_NEW_ARRAY_NOKEY (raw : nat -> Z) (n_elems : Z) : list Cell :=
  (fun i => mkCell (raw i) None) <$> seq 0 (Z.to_nat n_elems).

(** [for (size_t i = 0; i < n_elems; ++i) m_ring[i].m_pos.store(i)], with
    [count] iterations left. *)
Fixpoint init_cells (count : nat) (i : Z) (ring : list Cell) : list Cell :=
  match count with
  | O => ring
  | S count' => init_cells count' (i + 1) (store_pos ring (Z.to_nat i) i)
  end.

(** The constructor; [None] is the abort of [ut_a]. *)
Definition construct (raw : nat -> Z) (n_elems : Z) : option mpmc_bq :=
  let ring := UT_NEW_ARRAY_NOKEY raw n_elems in
  let capacity := wrap (n_elems - 1) in
  ut_a ((2 <=? n_elems) && (Z.land n_elems (wrap (n_elems - 1)) =? 0))
       (mkQueue (init_cells (Z.to_nat n_elems) 0 ring) capacity 0 0).

(** *** enqueue *)

(** The [for (;;)] of [enqueue], entered with the local [pos].  It leaves
    with [Some pos] at the [break], the ticket claimed, and with [None] at
    [return (false)]. *)
Fixpoint enqueue_loop (fuel spurious : nat) (q : mpmc_bq) (pos : Z)
  : result (mpmc_bq * option Z) :=
  match fuel with
  | O => Spinning
  | S fuel' =>
    match m_ring q !! cell_index q pos with
    | None => Undefined
    | Some cell =>
      let seq := m_pos cell in
      let d := diff seq pos in
      if d =? 0 then
        let '(obj, pos', ok) :=
          compare_exchange_weak (negb (Nat.eqb spurious 0))
                                (m_enqueue_pos q) pos (wrap (pos + 1)) in
        if ok then Ret (set_enqueue_pos q obj, Some pos)
        else enqueue_loop fuel' (Nat.pred spurious) q pos'
      else if d <? 0 then Ret (q, None)
      else enqueue_loop fuel' spurious q (m_enqueue_pos q)
    end
  end.

Definition enqueue (fuel spurious : nat) (q : mpmc_bq) (data : T)
  : result (mpmc_bq * bool) :=
  let* (q1, claim) := enqueue_loop fuel spurious q (m_enqueue_pos q) in
  match claim with
  | None => Ret (q1, false)
  | Some pos =>
    let i := cell_index q1 pos in
    let ring1 := store_data (m_ring q1) i data in
    let ring2 := store_pos ring1 i (wrap (pos + 1)) in
    Ret (set_ring q1 ring2, true)
  end.

(** *** dequeue *)

Fixpoint dequeue_loop (fuel spurious : nat) (q : mpmc_bq) (pos : Z)
  : result (mpmc_bq * option Z) :=
  match fuel with
  | O => Spinning
  | S fuel' =>
    match m_ring q !! cell_index q pos with
    | None => Undefined
    | Some cell =>
      let seq := m_pos cell in
      let d := diff seq (wrap (pos + 1)) in
      if d =? 0 then
        let '(obj, pos', ok) :=
          compare_exchange_weak (negb (Nat.eqb spurious 0))
                                (m_dequeue_pos q) pos (wrap (pos + 1)) in
        if ok then Ret (set_dequeue_pos q obj, Some pos)
        else dequeue_loop fuel' (Nat.pred spurious) q pos'
      else if d <? 0 then Ret (q, None)
      else dequeue_loop fuel' spurious q (m_dequeue_pos q)
    end
  end.

(** [dequeue(data)]: [Some v] is [true] with [data = v]; [None] is [false],
    with [data] untouched.  Reading a payload that was never constructed is
    [Undefined]. *)
Definition dequeue (fuel spurious : nat) (q : mpmc_bq)
  : result (mpmc_bq * option T) :=
  let* (q1, claim) := dequeue_loop fuel spurious q (m_dequeue_pos q) in
  match claim with
  | None => Ret (q1, None)
  | Some pos =>
    let i := cell_index q1 pos in
    match m_ring q1 !! i with
    | None => Undefined
    | Some cell =>
      match m_data cell with
      | None => Undefined
      | Some data =>
        let ring1 :=
          store_pos (m_ring q1) i (wrap (wrap (pos + m_capacity q1) + 1)) in
        Ret (set_ring q1 ring1, Some data)
      end
    end
  end.

(** *** capacity and empty *)

Definition capacity (q : mpmc_bq) : Z := wrap (m_capacity q + 1).

Fixpoint empty_loop (fuel : nat) (q : mpmc_bq) (pos : Z) : result bool :=
  match fuel with
  | O => Spinning
  | S fuel' =>
    match m_ring q !! cell_index q pos with
    | None => Undefined
    | Some cell =>
      let seq := m_pos cell in
      let d := diff seq (wrap (pos + 1)) in
      if d =? 0 then Ret false
      else if d <? 0 then Ret true
      else empty_loop fuel' q (m_dequeue_pos q)
    end
  end.

Definition empty (fuel : nat) (q : mpmc_bq) : result bool :=
  empty_loop fuel q (m_dequeue_pos q).

(** ** Sequential histories *)

(** A call, with the number of spurious failures its weak exchange meets. *)
Inductive op : Type :=
| Enqueue (data : T) (spurious : nat)
| Dequeue (spurious : nat).

(** A call together with what it returned. *)
Inductive event : Type :=
| EvEnqueue (data : T) (ok : bool)
| EvDequeue (out : option T).

Definition run_op (fuel : nat) (o : op) (q : mpmc_bq)
  : result (mpmc_bq * event) :=
  match o with
  | Enqueue data s =>
    let* (q', ok) := enqueue fuel s q data in Ret (q', EvEnqueue data ok)
  | Dequeue s =>
    let* (q', out) := dequeue fuel s q in Ret (q', EvDequeue out)
  end.

(** The calls of [ops] one after the other, each with [fuel] iterations. *)
Fixpoint run (fuel : nat) (ops : list op) (q : mpmc_bq)
  : result (mpmc_bq * list event) :=
  match ops with
  | [] => Ret (q, [])
  | o :: ops' =>
    let* (q1, e) := run_op fuel o q in
    let* (q2, es) := run fuel ops' q1 in
    Ret (q2, e :: es)
  end.

(** The values of the successful enqueues, and of the successful dequeues,
    of a history, in the order of the calls. *)
Fixpoint enqueued (es : list event) : list T :=
  match es with
  | [] => []
  | EvEnqueue data true :: es' => data :: enqueued es'
  | _ :: es' => enqueued es'
  end.

Fixpoint dequeued (es : list event) : list T :=
  match es with
  | [] => []
  | EvDequeue (Some data) :: es' => data :: dequeued es'
  | _ :: es' => dequeued es'
  end.

(** Did the call claim a ticket: [true] returned. *)
Definition succeeded (e : event) : bool :=
  match e with
  | EvEnqueue _ ok => ok
  | EvDequeue (Some _) => true
  | EvDequeue None => false
  end.

(** What a call adds to the number of successful dequeues. *)
Definition served (e : event) : Z :=
  match e with EvDequeue (Some _) => 1 | _ => 0 end.

(** What the caller of a history sees of it. *)
Definition responses (r : result (mpmc_bq * list event)) : result (list event) :=
  let* (_, es) := r in Ret es.

Definition spurious_of (o : op) : nat :=
  match o with Enqueue _ s => s | Dequeue s => s end.

(** [k] times an enqueue of [data] and the dequeue that takes it out. *)
Fixpoint round_trips (data : T) (k : nat) : list op :=
  match k with
  | O => []
  | S k' => Enqueue data 0 :: Dequeue 0 :: round_trips data k'
  end.

(** Dequeues, one per entry of [ss], the spurious failures they meet. *)
Definition drain (ss : list nat) : list op := List.map Dequeue ss.

(** [fuel] iterations are more than each of the numbers of failures. *)
Definition covers (fuel : nat) (ss : list nat) : bool :=
  forallb (fun s => Nat.ltb s fuel) ss.

(** ** The queue of the spec

    The contract in the spec's words: a FIFO sequence of at most [N] values;
    [enqueue] appends unless [N] values are held, [dequeue] removes the
    oldest value unless none is held. *)

Definition spec_enqueue (N : Z) (l : list T) (data : T) : list T * bool :=
  if Z.of_nat (length l) <? N then (l ++ [data], true) else (l, false).

Definition spec_dequeue (l : list T) : list T * option T :=
  match l with
  | [] => ([], None)
  | x :: l' => (l', Some x)
  end.

Definition spec_op (N : Z) (o : op) (l : list T) : list T * event :=
  match o with
  | Enqueue data _ =>
    let '(l', ok) := spec_enqueue N l data in (l', EvEnqueue data ok)
  | Dequeue _ =>
    let '(l', out) := spec_dequeue l in (l', EvDequeue out)
  end.

(** The failed exchanges of a call: a call that claims a ticket meets all
    the spurious failures in store for it, a call that finds the queue full
    or empty never reaches its exchange. *)
Definition retries (N : Z) (o : op) (l : list T) : nat :=
  match o with
  | Enqueue _ s => if Z.of_nat (length l) <? N then s else O
  | Dequeue s => match l with [] => O | _ :: _ => s end
  end.

Fixpoint spec_run (N : Z) (ops : list op) (l : list T) : list T * list event :=
  match ops with
  | [] => (l, [])
  | o :: ops' =>
    let '(l1, e) := spec_op N o l in
    let '(l2, es) := spec_run N ops' l1 in
    (l2, e :: es)
  end.

(** The cell of ticket [t] in a ring of [m_capacity q + 1] cells. *)
Definition slot (q : mpmc_bq) (t : Z) : nat :=
  Z.to_nat (t mod (m_capacity q + 1)).

(** [Rep q D l]: the queue [q] holds the values [l], oldest first, after
    [D] successful dequeues.  The tickets [D, D + |l|) are published, the
    tickets [D + |l|, D + N) are armed for their producer. *)
Record Rep (q : mpmc_bq) (D : Z) (l : list T) : Prop := mkRep {
  rep_pow2 : exists k, 1 <= k <= 63 /\ m_capacity q = 2 ^ k - 1;
  rep_ring : Z.of_nat (length (m_ring q)) = m_capacity q + 1;
  rep_count : 0 <= D;
  rep_dequeue_pos : m_dequeue_pos q = wrap D;
  rep_enqueue_pos : m_enqueue_pos q = wrap (D + Z.of_nat (length l));
  rep_bound : Z.of_nat (length l) <= m_capacity q + 1;
  rep_published : forall (j : nat) (v : T),
      l !! j = Some v ->
      m_ring q !! slot q (D + Z.of_nat j)
      = Some (mkCell (wrap (D + Z.of_nat j + 1)) (Some v));
  rep_armed : forall j : Z,
      Z.of_nat (length l) <= j < m_capacity q + 1 ->
      exists c, m_ring q !! slot q (D + j) = Some c
                /\ m_pos c = wrap (D + j)
}.

End Model.

Arguments mkCell {T} _ _.
Arguments m_pos {T} _.
Arguments m_data {T} _.
Arguments mkQueue {T} _ _ _ _.
Arguments m_ring {T} _.
Arguments m_capacity {T} _.
Arguments m_enqueue_pos {T} _.
Arguments m_dequeue_pos {T} _.
Arguments store_pos {T} _ _ _.
Arguments store_data {T} _ _ _.
Arguments cell_index {T} _ _.
Arguments set_enqueue_pos {T} _ _.
Arguments set_dequeue_pos {T} _ _.
Arguments set_ring {T} _ _.
Arguments UT_NEW_ARRAY_NOKEY {T} _ _.
Arguments init_cells {T} _ _ _.
Arguments construct {T} _ _.
Arguments enqueue_loop {T} _ _ _ _.
Arguments enqueue {T} _ _ _ _.
Arguments dequeue_loop {T} _ _ _ _.
Arguments dequeue {T} _ _ _.
Arguments capacity {T} _.
Arguments empty_loop {T} _ _ _.
Arguments empty {T} _ _.
Arguments Enqueue {T} _ _.
Arguments Dequeue {T} _.
Arguments EvEnqueue {T} _ _.
Arguments EvDequeue {T} _.
Arguments run_op {T} _ _ _.
Arguments run {T} _ _ _.
Arguments enqueued {T} _.
Arguments dequeued {T} _.
Arguments spurious_of {T} _.
Arguments served {T} _.
Arguments succeeded {T} _.
Arguments retries {T} _ _ _.
Arguments responses {T} _.
Arguments round_trips {T} _ _.
Arguments drain {T} _.
Arguments spec_enqueue {T} _ _ _.
Arguments spec_dequeue {T} _.
Arguments spec_op {T} _ _ _.
Arguments spec_run {T} _ _ _.
Arguments slot {T} _ _.
Arguments Rep {T} _ _ _.

(** * cluster_metadata.cc: the addresses of a metadata row

    [get_string] and [set_instance_ports] of
    router/src/metadata_cache/src/cluster_metadata.cc.  A [const char *] is an
    [option] of a string, [None] the null pointer; a [Row], a vector of them,
    is a list read by index, and an index outside of it is [Undefined].  The
    calls of the logger are left out. *)

(** [get_string]. *)
Definition get_string (input_str : option String.string) : String.string :=
  match input_str with
  | None => ""%string
  | Some str => str
  end.

(** [std::string::find(c)]: the index of the first [c]; [None] is [npos]. *)
Fixpoint string_find (c : Ascii.ascii) (str : String.string) : option nat :=
  match str with
  | String.EmptyString => None
  | String.String a str' =>
    if Ascii.eqb a c then Some O else option_map S (string_find c str')
  end.

(** [str.substr(pos, n)] and [str.substr(pos)], for [pos] within [str]. *)
Definition substr (str : String.string) (pos n : nat) : String.string :=
  String.substring pos n str.

Definition substr_from (str : String.string) (pos : nat) : String.string :=
  String.substring pos (String.length str - pos) str.

(** [static_cast<uint16_t>]. *)
Definition to_uint16 (z : Z) : Z := z mod 2 ^ 16.

(** Modelled from the spec: [metadata_cache::ManagedInstance] is declared in
    mysqlrouter/metadata_cache.h, which is not part of the sources at hand,
    and the spec does not describe it.  These are the members the file
    touches; [port] and [xport] are taken to be [uint16_t], the type every
    store into them casts to. *)
Record ManagedInstance : Type := mkInstance {
  mysql_server_uuid : String.string;
  host : String.string;
  port : Z;
  xport : Z
}.

Definition set_host (instance : ManagedInstance) (v : String.string) :=
  mkInstance (mysql_server_uuid instance) v (port instance) (xport instance).

Definition set_port (instance : ManagedInstance) (v : Z) :=
  mkInstance (mysql_server_uuid instance) (host instance) v (xport instance).

Definition set_xport (instance : ManagedInstance) (v : Z) :=
  mkInstance (mysql_server_uuid instance) (host instance) (port instance) v.

Section Addresses.

(** Modelled from the spec: [mysqlrouter::strtoi_checked] is declared in
    mysqlrouter/utils.h, which is not part of the sources at hand, and the
    spec does not describe it.  It is a parameter: the [int] it returns for a
    text, or [None] when it throws the [std::runtime_error] its callers
    catch. *)
Variable strtoi_checked : String.string -> option Z.

(** The first [try] of [set_instance_ports], on the classic address; the
    flag is [false] when the [catch] ran. *)
Definition classic_address (instance : ManagedInstance) (uri : String.string)
  : ManagedInstance * bool :=
  match string_find ":"%char uri with
  | Some p =>
    let instance1 := set_host instance (substr uri 0 p) in
    match strtoi_checked (substr_from uri (p + 1)) with
    | Some v => (set_port instance1 (to_uint16 v), true)
    | None => (instance1, false)
    end
  | None => (set_port (set_host instance uri) 3306, true)
  end.

(** The second [try], on the address of the X protocol. *)
Definition x_address (instance : ManagedInstance) (uri : String.string)
  : ManagedInstance * bool :=
  match string_find ":"%char uri with
  | Some p =>
    let instance1 := set_host instance (substr uri 0 p) in
    match strtoi_checked (substr_from uri (p + 1)) with
    | Some v => (set_xport instance1 (to_uint16 v), true)
    | None => (instance1, false)
    end
  | None => (set_xport (set_host instance uri) 33060, true)
  end.

(** [row[x_port_column] && *row[x_port_column]]. *)
Definition non_empty (field : option String.string) : bool :=
  match field with
  | Some (String.String _ _) => true
  | _ => false
  end.

(** [set_instance_ports]: the instance as the call leaves it, and the flag
    it returns. *)
Definition set_instance_ports (instance : ManagedInstance)
    (row : list (option String.string))
    (classic_port_column x_port_column : nat)
  : result (ManagedInstance * bool) :=
  match row !! classic_port_column with
  | None => Undefined
  | Some classic =>
    let '(instance1, ok) := classic_address instance (get_string classic) in
    if ok then
      match row !! x_port_column with
      | None => Undefined
      | Some x =>
        if non_empty x then
          let '(instance2, ok2) := x_address instance1 (get_string x) in
          Ret (instance2, ok2)
        else
          Ret (set_xport instance1 (to_uint16 (port instance1 * 10)), true)
      end
    else Ret (instance1, false)
  end.

End Addresses.

(** ** Word arithmetic *)

Ltac words :=
  unfold wrap, to_intptr, intptr_sub, diff, size_max, intptr_max in *;
  change (2 ^ 64) with 18446744073709551616 in *;
  change (2 ^ 63) with 9223372036854775808 in *.

Ltac euclid := Z.to_euclidean_division_equations; lia.

Lemma wrap_small z : 0 <= z < size_max -> wrap z = z.
Proof. words. intros. euclid. Qed.

Lemma wrap_wrap z : wrap (wrap z) = wrap z.
Proof. words. euclid. Qed.

Lemma wrap_add_l a b : wrap (wrap a + b) = wrap (a + b).
Proof. words. euclid. Qed.

Lemma wrap_add_r a b : wrap (a + wrap b) = wrap (a + b).
Proof. words. euclid. Qed.

Lemma wrap_sub a b : wrap (wrap a - wrap b) = wrap (a - b).
Proof. words. euclid. Qed.

(** Casting to [intptr_t] does not change the word. *)
Lemma wrap_to_intptr u : wrap (to_intptr u) = wrap u.
Proof. words. destruct (Z.ltb_spec u 9223372036854775808); euclid. Qed.

(** A distance that fits [intptr_t] is read back exactly. *)
Lemma to_intptr_wrap d : - intptr_max <= d < intptr_max -> to_intptr (wrap d) = d.
Proof.
  words. intros.
  destruct (Z.ltb_spec (d mod 18446744073709551616) 9223372036854775808); euclid.
Qed.

(** The test of the loops only depends on the difference of the words. *)
Lemma diff_wrap a b : diff (wrap a) (wrap b) = to_intptr (wrap (a - b)).
Proof.
  unfold diff, intptr_sub. f_equal.
  rewrite <- wrap_sub, !wrap_to_intptr, !wrap_wrap, wrap_sub. reflexivity.
Qed.

Lemma diff_words seq pos :
  0 <= seq < size_max -> 0 <= pos < size_max ->
  diff seq pos = to_intptr (wrap (seq - pos)).
Proof.
  intros Hs Hp. rewrite <- (wrap_small seq Hs) at 1.
  rewrite <- (wrap_small pos Hp) at 1. apply diff_wrap.
Qed.

(** [seq] is [d] tickets away from [pos], whatever wrapped in between. *)
Lemma diff_distance t d :
  - intptr_max <= d < intptr_max -> diff (wrap (t + d)) (wrap t) = d.
Proof.
  intros. rewrite diff_wrap. replace (t + d - t) with d by lia.
  now apply to_intptr_wrap.
Qed.

(** ** Powers of two *)

Lemma pow2_pos k : 0 <= k -> 0 < 2 ^ k.
Proof. intros. apply Z.pow_pos_nonneg; lia. Qed.

Lemma pow2_le_63 k : 0 <= k <= 63 -> 2 ^ k <= intptr_max.
Proof. intros. unfold intptr_max. apply Z.pow_le_mono_r; lia. Qed.

Lemma pow2_divides_size_max k : 0 <= k <= 64 -> (2 ^ k | size_max).
Proof.
  intros. exists (2 ^ (64 - k)). unfold size_max.
  rewrite <- Z.pow_add_r by lia. f_equal. lia.
Qed.

Lemma mod_wrap_pow2 t k : 0 <= k <= 64 -> wrap t mod 2 ^ k = t mod 2 ^ k.
Proof.
  intros. unfold wrap. apply Z.mod_mod_divide.
  now apply pow2_divides_size_max.
Qed.

(** [pos & m_capacity] is [pos] modulo the size of the ring. *)
Lemma land_mask t k : 0 <= k -> Z.land t (2 ^ k - 1) = t mod 2 ^ k.
Proof.
  intros. replace (2 ^ k - 1) with (Z.ones k).
  - now apply Z.land_ones.
  - rewrite Z.ones_equiv. lia.
Qed.

Lemma land_pow2_pred k : 0 <= k -> Z.land (2 ^ k) (2 ^ k - 1) = 0.
Proof.
  intros. rewrite land_mask by lia. apply Z_mod_same_full.
Qed.

(** A positive word that shares no bit with its predecessor is a power of
    two. *)
Lemma land_pred_zero n :
  0 < n -> Z.land n (n - 1) = 0 -> exists k, 0 <= k /\ n = 2 ^ k.
Proof.
  intros Hn Hland. exists (Z.log2 n).
  pose proof (Z.log2_nonneg n) as Hk.
  destruct (Z.log2_spec n Hn) as [Hlo Hhi].
  split; [lia|].
  destruct (Z.eq_dec n (2 ^ Z.log2 n)) as [|Hne]; [assumption|exfalso].
  assert (Hlog : Z.log2 (n - 1) = Z.log2 n).
  { apply Z.log2_unique; lia. }
  assert (Hbit : Z.testbit (Z.land n (n - 1)) (Z.log2 n) = true).
  { rewrite Z.land_spec, Z.bit_log2 by lia.
    rewrite <- Hlog. rewrite Z.bit_log2; [reflexivity|].
    pose proof (pow2_pos (Z.log2 n) Hk). lia. }
  rewrite Hland, Z.bits_0 in Hbit. discriminate.
Qed.

(** The condition of the constructor's [ut_a]. *)
Lemma valid_capacity_pow2 n :
  0 <= n < size_max ->
  (2 <=? n) && (Z.land n (wrap (n - 1)) =? 0) = true
  <-> exists k, 1 <= k <= 63 /\ n = 2 ^ k.
Proof.
  intros Hn. rewrite andb_true_iff, Z.leb_le, Z.eqb_eq.
  split.
  - intros [H2 Hland]. rewrite wrap_small in Hland by lia.
    destruct (land_pred_zero n) as (k & Hk & ->); [lia|assumption|].
    exists k. split; [|reflexivity]. split.
    + destruct (Z.eq_dec k 0) as [->|]; [simpl in H2; lia|lia].
    + destruct (Z_lt_le_dec 63 k) as [Hgt|]; [|lia].
      assert (2 ^ 64 <= 2 ^ k) by (apply Z.pow_le_mono_r; lia).
      unfold size_max in Hn. lia.
  - intros (k & Hk & ->).
    assert (2 ^ 1 <= 2 ^ k) by (apply Z.pow_le_mono_r; lia).
    pose proof (pow2_le_63 k ltac:(lia)). 
    split; [simpl in *; lia|].
    rewrite wrap_small; [apply land_pow2_pred; lia|].
    unfold size_max, intptr_max in *.
    change (2 ^ 64) with (2 * 2 ^ 63). simpl in *. lia.
Qed.

(** ** The ring *)

Section Ring.

Context {T : Type}.
Implicit Types (ring : list (Cell T)) (q : mpmc_bq T) (c : Cell T).

Lemma length_store_pos ring i v : length (store_pos ring i v) = length ring.
Proof. apply length_alter. Qed.

Lemma length_store_data ring i (x : T) :
  length (store_data ring i x) = length ring.
Proof. apply length_alter. Qed.

Lemma lookup_store_pos_eq ring i v c :
  ring !! i = Some c -> store_pos ring i v !! i = Some (mkCell v (m_data c)).
Proof. intros H. unfold store_pos. now rewrite list_lookup_alter_eq, H. Qed.

Lemma lookup_store_pos_ne ring i j v :
  i <> j -> store_pos ring i v !! j = ring !! j.
Proof. intros H. unfold store_pos. now rewrite list_lookup_alter_ne. Qed.

Lemma lookup_store_data_eq ring i (x : T) c :
  ring !! i = Some c -> store_data ring i x !! i = Some (mkCell (m_pos c) (Some x)).
Proof. intros H. unfold store_data. now rewrite list_lookup_alter_eq, H. Qed.

Lemma lookup_store_data_ne ring i j (x : T) :
  i <> j -> store_data ring i x !! j = ring !! j.
Proof. intros H. unfold store_data. now rewrite list_lookup_alter_ne. Qed.

Lemma length_init_cells count : forall i ring,
  length (init_cells count i ring) = length ring.
Proof.
  induction count as [|count IH]; intros i ring; simpl; [reflexivity|].
  now rewrite IH, length_store_pos.
Qed.

(** The loop of the constructor stores [j] in every cell [j] it passes and
    touches no other cell. *)
Lemma lookup_init_cells count : forall i ring (j : nat) c,
  0 <= i ->
  ring !! j = Some c ->
  init_cells count i ring !! j
  = Some (if decide (i <= Z.of_nat j < i + Z.of_nat count)
          then mkCell (Z.of_nat j) (m_data c) else c).
Proof.
  induction count as [|count IH]; intros i ring j c Hi Hj; simpl init_cells.
  - rewrite Hj. case_decide; [lia|reflexivity].
  - destruct (decide (Z.to_nat i = j)) as [<-|Hne].
    + rewrite (IH (i + 1) _ _ (mkCell i (m_data c)));
        [|lia|now apply lookup_store_pos_eq].
      simpl. rewrite Z2Nat.id by lia.
      repeat case_decide; try lia; reflexivity.
    + rewrite (IH (i + 1) _ j c); [|lia|now rewrite lookup_store_pos_ne].
      repeat case_decide; try lia; reflexivity.
Qed.

Lemma lookup_new_array raw n (j : nat) :
  (j < Z.to_nat n)%nat ->
  UT_NEW_ARRAY_NOKEY (T:=T) raw n !! j = Some (mkCell (raw j) None).
Proof.
  intros H. unfold UT_NEW_ARRAY_NOKEY.
  now rewrite list_lookup_fmap, lookup_seq_lt.
Qed.

Lemma length_new_array raw n :
  length (UT_NEW_ARRAY_NOKEY (T:=T) raw n) = Z.to_nat n.
Proof. unfold UT_NEW_ARRAY_NOKEY. now rewrite length_fmap, length_seq. Qed.

(** What the constructor builds, when it returns. *)
Lemma construct_Some raw n q :
  construct raw n = Some q ->
  (2 <=? n) && (Z.land n (wrap (n - 1)) =? 0) = true
  /\ q = mkQueue (init_cells (Z.to_nat n) 0 (UT_NEW_ARRAY_NOKEY raw n))
                 (wrap (n - 1)) 0 0.
Proof.
  unfold construct, ut_a.
  destruct ((2 <=? n) && (Z.land n (wrap (n - 1)) =? 0)); [|discriminate].
  intros [= <-]. split; reflexivity.
Qed.

Lemma lookup_construct raw n q (j : nat) :
  construct raw n = Some q ->
  Z.of_nat j < n ->
  m_ring q !! j = Some (mkCell (Z.of_nat j) None).
Proof.
  intros Hq Hj. apply construct_Some in Hq as [_ ->]. simpl.
  rewrite (lookup_init_cells _ _ _ j (mkCell (raw j) None)).
  - case_decide; [reflexivity|lia].
  - lia.
  - apply lookup_new_array. lia.
Qed.

(** *** Tickets and cells *)

Lemma cell_index_slot q k t :
  0 <= k <= 64 -> m_capacity q = 2 ^ k - 1 ->
  cell_index q (wrap t) = slot q t.
Proof.
  intros Hk Hcap. unfold cell_index, slot. rewrite Hcap.
  rewrite land_mask, mod_wrap_pow2 by lia. do 2 f_equal. lia.
Qed.

(** Tickets less than a lap apart live in different cells. *)
Lemma slot_ne q a b :
  0 < m_capacity q + 1 -> a <> b -> - (m_capacity q + 1) < a - b < m_capacity q + 1 ->
  slot q a <> slot q b.
Proof.
  intros HN Hab Hclose Heq. unfold slot in Heq.
  set (N := m_capacity q + 1) in *.
  pose proof (Z.mod_pos_bound a N HN). pose proof (Z.mod_pos_bound b N HN).
  assert (Hmod : a mod N = b mod N) by lia.
  pose proof (Z.div_mod a N ltac:(lia)) as Ha.
  pose proof (Z.div_mod b N ltac:(lia)) as Hb.
  assert (Hc : a - b = N * (a / N - b / N)) by lia.
  assert (a / N - b / N = 0) by nia.
  lia.
Qed.

Lemma slot_lap q t : 0 < m_capacity q + 1 -> slot q (t + (m_capacity q + 1)) = slot q t.
Proof.
  intros H. unfold slot. f_equal.
  rewrite <- (Z.mul_1_l (m_capacity q + 1)) at 1.
  apply Z.mod_add. lia.
Qed.

End Ring.

(** ** The retry loops *)

Section Loops.

Context {T : Type}.
Implicit Types (q : mpmc_bq T) (c : Cell T).

(** At a cell armed for the ticket, the loop of [enqueue] leaves at its
    [break] in the iteration after the last spurious failure. *)
Lemma enqueue_loop_claim q c :
  m_ring q !! cell_index q (m_enqueue_pos q) = Some c ->
  diff (m_pos c) (m_enqueue_pos q) = 0 ->
  forall fuel s,
    enqueue_loop fuel s q (m_enqueue_pos q)
    = if (s <? fuel)%nat
      then Ret (set_enqueue_pos q (wrap (m_enqueue_pos q + 1)),
                Some (m_enqueue_pos q))
      else Spinning.
Proof.
  intros Hc Hd. induction fuel as [|fuel IH]; intros s; [reflexivity|].
  cbn [enqueue_loop]. rewrite Hc, Hd. cbn [Z.eqb].
  unfold compare_exchange_weak. rewrite Z.eqb_refl.
  destruct s as [|s]; cbn [Nat.eqb negb andb Nat.pred]; [reflexivity|].
  apply IH.
Qed.

Lemma enqueue_loop_full q c pos :
  m_ring q !! cell_index q pos = Some c ->
  diff (m_pos c) pos < 0 ->
  forall fuel s,
    enqueue_loop fuel s q pos
    = if (0 <? fuel)%nat then Ret (q, None) else Spinning.
Proof.
  intros Hc Hd [|fuel] s; [reflexivity|].
  cbn [enqueue_loop]. rewrite Hc.
  destruct (Z.eqb_spec (diff (m_pos c) pos) 0); [lia|].
  destruct (Z.ltb_spec (diff (m_pos c) pos) 0); [reflexivity|lia].
Qed.

Lemma dequeue_loop_claim q c :
  m_ring q !! cell_index q (m_dequeue_pos q) = Some c ->
  diff (m_pos c) (wrap (m_dequeue_pos q + 1)) = 0 ->
  forall fuel s,
    dequeue_loop fuel s q (m_dequeue_pos q)
    = if (s <? fuel)%nat
      then Ret (set_dequeue_pos q (wrap (m_dequeue_pos q + 1)),
                Some (m_dequeue_pos q))
      else Spinning.
Proof.
  intros Hc Hd. induction fuel as [|fuel IH]; intros s; [reflexivity|].
  cbn [dequeue_loop]. rewrite Hc, Hd. cbn [Z.eqb].
  unfold compare_exchange_weak. rewrite Z.eqb_refl.
  destruct s as [|s]; cbn [Nat.eqb negb andb Nat.pred]; [reflexivity|].
  apply IH.
Qed.

Lemma dequeue_loop_empty q c pos :
  m_ring q !! cell_index q pos = Some c ->
  diff (m_pos c) (wrap (pos + 1)) < 0 ->
  forall fuel s,
    dequeue_loop fuel s q pos
    = if (0 <? fuel)%nat then Ret (q, None) else Spinning.
Proof.
  intros Hc Hd [|fuel] s; [reflexivity|].
  cbn [dequeue_loop]. rewrite Hc.
  destruct (Z.eqb_spec (diff (m_pos c) (wrap (pos + 1))) 0); [lia|].
  destruct (Z.ltb_spec (diff (m_pos c) (wrap (pos + 1))) 0); [reflexivity|lia].
Qed.

(** However a loop is entered, it changes the queue only at its [break],
    where it has moved its cursor from the ticket to the next word. *)
Lemma enqueue_loop_inv fuel : forall s q pos q1 claim,
  enqueue_loop fuel s q pos = Ret (q1, claim) ->
  match claim with
  | None => q1 = q
  | Some pos1 =>
    pos1 = m_enqueue_pos q /\ q1 = set_enqueue_pos q (wrap (pos1 + 1))
  end.
Proof.
  induction fuel as [|fuel IH]; intros s q pos q1 claim; [discriminate|].
  cbn [enqueue_loop].
  destruct (m_ring q !! cell_index q pos) as [c|]; [|discriminate].
  destruct (diff (m_pos c) pos =? 0).
  - unfold compare_exchange_weak.
    destruct (Z.eqb_spec (m_enqueue_pos q) pos) as [Heq|Hne];
      cbn [andb]; [destruct (negb (s =? 0)%nat); cbn [negb]|].
    + apply IH.
    + intros [= <- <-]. split; [now symmetry|reflexivity].
    + apply IH.
  - destruct (diff (m_pos c) pos <? 0).
    + now intros [= <- <-].
    + apply IH.
Qed.

Lemma dequeue_loop_inv fuel : forall s q pos q1 claim,
  dequeue_loop fuel s q pos = Ret (q1, claim) ->
  match claim with
  | None => q1 = q
  | Some pos1 =>
    pos1 = m_dequeue_pos q /\ q1 = set_dequeue_pos q (wrap (pos1 + 1))
  end.
Proof.
  induction fuel as [|fuel IH]; intros s q pos q1 claim; [discriminate|].
  cbn [dequeue_loop].
  destruct (m_ring q !! cell_index q pos) as [c|]; [|discriminate].
  destruct (diff (m_pos c) (wrap (pos + 1)) =? 0).
  - unfold compare_exchange_weak.
    destruct (Z.eqb_spec (m_dequeue_pos q) pos) as [Heq|Hne];
      cbn [andb]; [destruct (negb (s =? 0)%nat); cbn [negb]|].
    + apply IH.
    + intros [= <- <-]. split; [now symmetry|reflexivity].
    + apply IH.
  - destruct (diff (m_pos c) (wrap (pos + 1)) <? 0).
    + now intros [= <- <-].
    + apply IH.
Qed.

End Loops.

(** ** The queue refines the queue of the spec *)

Section Refinement.

Context {T : Type}.
Implicit Types (q : mpmc_bq T) (c : Cell T) (l : list T) (D : Z).

Lemma Rep_capacity q D l : Rep q D l -> 2 <= m_capacity q + 1 <= intptr_max.
Proof.
  intros [(k & Hk & Hcap) _ _ _ _ _ _ _]. rewrite Hcap.
  pose proof (pow2_le_63 k ltac:(lia)).
  assert (2 ^ 1 <= 2 ^ k) by (apply Z.pow_le_mono_r; lia).
  simpl in *. lia.
Qed.

Lemma Rep_cell_index q D l t : Rep q D l -> cell_index q (wrap t) = slot q t.
Proof.
  intros [(k & Hk & Hcap) _ _ _ _ _ _ _].
  apply (cell_index_slot q k); [lia|assumption].
Qed.

Lemma construct_capacity raw n (q : mpmc_bq T) :
  0 <= n < size_max -> construct raw n = Some q ->
  2 <= n /\ m_capacity q = n - 1.
Proof.
  intros Hn Hq. apply construct_Some in Hq as [Hvalid ->].
  apply andb_true_iff in Hvalid as [H2 _]. apply Z.leb_le in H2.
  split; [assumption|]. cbn [m_capacity]. apply wrap_small. lia.
Qed.

(** A freshly constructed queue holds nothing. *)
Lemma construct_Rep raw n (q : mpmc_bq T) :
  0 <= n < size_max -> construct raw n = Some q -> Rep q 0 [].
Proof.
  intros Hn Hq.
  pose proof (construct_Some _ _ _ Hq) as [Hvalid Hdef].
  apply valid_capacity_pow2 in Hvalid as (k & Hk & Hnk); [|assumption].
  assert (Hcap : m_capacity q = n - 1).
  { rewrite Hdef. simpl. apply wrap_small. lia. }
  assert (2 ^ 1 <= 2 ^ k) by (apply Z.pow_le_mono_r; lia).
  constructor.
  - exists k. split; [assumption|]. now rewrite Hcap, Hnk.
  - rewrite Hcap, Hdef. simpl.
    rewrite length_init_cells, length_new_array. lia.
  - lia.
  - rewrite Hdef. reflexivity.
  - rewrite Hdef. reflexivity.
  - simpl in *. lia.
  - intros j v Hj. rewrite lookup_nil in Hj. discriminate.
  - intros j Hj. simpl in Hj. rewrite Hcap in Hj.
    exists (mkCell j None). split.
    + unfold slot. rewrite Hcap. replace (n - 1 + 1) with n by lia.
      rewrite Z.add_0_l, Z.mod_small by lia.
      rewrite (lookup_construct raw n q (Z.to_nat j) Hq) by lia.
      now rewrite Z2Nat.id by lia.
    + simpl. rewrite wrap_small; lia.
Qed.

(** *** enqueue *)

Lemma enqueue_room q D l (data : T) :
  Rep q D l -> Z.of_nat (length l) < m_capacity q + 1 ->
  exists q',
    (forall fuel s,
        enqueue fuel s q data
        = if (s <? fuel)%nat then Ret (q', true) else Spinning)
    /\ m_capacity q' = m_capacity q
    /\ Rep q' D (l ++ [data]).
Proof.
  intros HR Hroom.
  pose proof (Rep_capacity _ _ _ HR) as HN.
  pose proof (Rep_cell_index q D l (D + Z.of_nat (length l)) HR) as Hidx.
  destruct HR as [Hpow Hring HD Hdeq Henq Hbound Hpub Harm].
  destruct (Harm (Z.of_nat (length l)) ltac:(lia)) as (c & Hc & Hseq).
  rewrite <- Henq in Hidx.
  set (i := slot q (D + Z.of_nat (length l))) in *.
  exists (set_ring (set_enqueue_pos q (wrap (m_enqueue_pos q + 1)))
                   (store_pos (store_data (m_ring q) i data) i
                              (wrap (m_enqueue_pos q + 1)))).
  split; [|split; [reflexivity|]].
  - intros fuel s. unfold enqueue.
    rewrite (enqueue_loop_claim q c).
    + destruct (s <? fuel)%nat; [|reflexivity]. cbn [bind].
      change (cell_index (set_enqueue_pos q _) (m_enqueue_pos q))
        with (cell_index q (m_enqueue_pos q)).
      rewrite Hidx. reflexivity.
    + now rewrite Hidx.
    + rewrite Hseq, Henq, diff_wrap, Z.sub_diag. reflexivity.
  - constructor; cbn [set_ring set_enqueue_pos m_ring m_capacity
                      m_enqueue_pos m_dequeue_pos].
    + assumption.
    + now rewrite length_store_pos, length_store_data.
    + assumption.
    + assumption.
    + rewrite Henq, wrap_add_l, length_app. cbn [length]. f_equal. lia.
    + rewrite length_app. cbn [length]. lia.
    + intros j v Hj.
      change (slot (set_ring _ _) ?t) with (slot q t).
      apply lookup_app_Some in Hj as [Hj|[Hlen Hj]].
      * pose proof (lookup_lt_Some _ _ _ Hj).
        rewrite lookup_store_pos_ne, lookup_store_data_ne;
          [now apply Hpub| |]; apply slot_ne; lia.
      * apply list_lookup_singleton_Some in Hj as [Hj <-].
        replace (Z.of_nat j) with (Z.of_nat (length l)) by lia. fold i.
        rewrite (lookup_store_pos_eq _ _ _ (mkCell (m_pos c) (Some data)));
          [|now apply lookup_store_data_eq].
        cbn [m_data]. rewrite Henq, wrap_add_l. reflexivity.
    + intros j Hj. rewrite length_app in Hj. cbn [length] in Hj.
      change (slot (set_ring _ _) ?t) with (slot q t).
      rewrite lookup_store_pos_ne, lookup_store_data_ne;
        [apply Harm; lia| |]; apply slot_ne; lia.
Qed.

Lemma enqueue_full q D l (data : T) :
  Rep q D l -> Z.of_nat (length l) = m_capacity q + 1 ->
  forall fuel s,
    enqueue fuel s q data
    = if (0 <? fuel)%nat then Ret (q, false) else Spinning.
Proof.
  intros HR Hfull fuel s.
  pose proof (Rep_capacity _ _ _ HR) as HN.
  pose proof (Rep_cell_index q D l (D + Z.of_nat (length l)) HR) as Hidx.
  destruct HR as [Hpow Hring HD Hdeq Henq Hbound Hpub Harm].
  destruct l as [|x l]; [simpl in Hfull; lia|].
  pose proof (Hpub 0%nat x eq_refl) as Hc.
  rewrite <- Henq, Hfull, slot_lap in Hidx by lia.
  rewrite Z.add_0_r in Hc.
  unfold enqueue.
  rewrite (enqueue_loop_full q _ _ ltac:(rewrite Hidx; exact Hc)).
  - now destruct (0 <? fuel)%nat.
  - cbn [m_pos]. rewrite Henq, diff_wrap.
    rewrite to_intptr_wrap; lia.
Qed.

(** *** dequeue *)

Lemma dequeue_some q D x l :
  Rep q D (x :: l) ->
  exists q',
    (forall fuel s,
        dequeue fuel s q
        = if (s <? fuel)%nat then Ret (q', Some x) else Spinning)
    /\ m_capacity q' = m_capacity q
    /\ Rep q' (D + 1) l.
Proof.
  intros HR.
  pose proof (Rep_capacity _ _ _ HR) as HN.
  pose proof (Rep_cell_index q D _ D HR) as Hidx.
  destruct HR as [Hpow Hring HD Hdeq Henq Hbound Hpub Harm].
  pose proof (Hpub 0%nat x eq_refl) as Hc.
  rewrite Z.add_0_r in Hc. rewrite <- Hdeq in Hidx.
  cbn [length] in Hbound, Henq.
  set (i := slot q D) in *.
  exists (set_ring (set_dequeue_pos q (wrap (m_dequeue_pos q + 1)))
                   (store_pos (m_ring q) i
                              (wrap (wrap (m_dequeue_pos q + m_capacity q) + 1)))).
  split; [|split; [reflexivity|]].
  - intros fuel s. unfold dequeue.
    rewrite (dequeue_loop_claim q (mkCell (wrap (D + 1)) (Some x))).
    + destruct (s <? fuel)%nat; [|reflexivity]. cbn [bind].
      change (cell_index (set_dequeue_pos q _) (m_dequeue_pos q))
        with (cell_index q (m_dequeue_pos q)).
      rewrite Hidx.
      change (m_ring (set_dequeue_pos q _)) with (m_ring q).
      rewrite Hc. reflexivity.
    + now rewrite Hidx.
    + cbn [m_pos]. rewrite Hdeq, wrap_add_l, diff_wrap, Z.sub_diag.
      reflexivity.
  - constructor; cbn [set_ring set_dequeue_pos m_ring m_capacity
                      m_enqueue_pos m_dequeue_pos].
    + assumption.
    + now rewrite length_store_pos.
    + lia.
    + now rewrite Hdeq, wrap_add_l.
    + rewrite Henq. f_equal. lia.
    + lia.
    + intros j v Hj.
      change (slot (set_ring _ _) ?t) with (slot q t).
      pose proof (lookup_lt_Some _ _ _ Hj).
      rewrite lookup_store_pos_ne by (apply slot_ne; lia).
      replace (D + 1 + Z.of_nat j) with (D + Z.of_nat (S j)) by lia.
      now apply Hpub.
    + intros j Hj.
      change (slot (set_ring _ _) ?t) with (slot q t).
      destruct (Z.eq_dec j (m_capacity q)) as [->|Hlast].
      * replace (D + 1 + m_capacity q) with (D + (m_capacity q + 1)) by lia.
        rewrite slot_lap by lia. fold i.
        rewrite (lookup_store_pos_eq _ _ _ _ Hc). eexists. split; [reflexivity|].
        cbn [m_pos]. rewrite Hdeq, wrap_add_l, <- Z.add_assoc, wrap_add_l.
        f_equal; lia.
      * rewrite lookup_store_pos_ne by (apply slot_ne; lia).
        replace (D + 1 + j) with (D + (j + 1)) by lia.
        apply Harm. cbn [length]. lia.
Qed.

Lemma dequeue_none q D :
  Rep q D [] ->
  forall fuel s,
    dequeue fuel s q = if (0 <? fuel)%nat then Ret (q, None) else Spinning.
Proof.
  intros HR fuel s.
  pose proof (Rep_capacity _ _ _ HR) as HN.
  pose proof (Rep_cell_index q D _ D HR) as Hidx.
  destruct HR as [Hpow Hring HD Hdeq Henq Hbound Hpub Harm].
  destruct (Harm 0 ltac:(simpl; lia)) as (c & Hc & Hseq).
  rewrite Z.add_0_r in Hc, Hseq. rewrite <- Hdeq in Hidx.
  unfold dequeue.
  rewrite (dequeue_loop_empty q c _ ltac:(rewrite Hidx; exact Hc)).
  - now destruct (0 <? fuel)%nat.
  - rewrite Hseq, Hdeq, wrap_add_l, diff_wrap.
    replace (D - (D + 1)) with (-1) by lia. reflexivity.
Qed.

(** *** empty *)

Lemma empty_Rep q D l :
  Rep q D l ->
  forall fuel,
    empty fuel q
    = if (0 <? fuel)%nat
      then Ret (match l with [] => true | _ :: _ => false end)
      else Spinning.
Proof.
  intros HR [|fuel]; [reflexivity|].
  pose proof (Rep_capacity _ _ _ HR) as HN.
  pose proof (Rep_cell_index q D _ D HR) as Hidx.
  destruct HR as [Hpow Hring HD Hdeq Henq Hbound Hpub Harm].
  rewrite <- Hdeq in Hidx. unfold empty. cbn [empty_loop]. rewrite Hidx.
  destruct l as [|x l].
  - destruct (Harm 0 ltac:(simpl; lia)) as (c & Hc & Hseq).
    rewrite Z.add_0_r in Hc, Hseq. rewrite Hc, Hseq, Hdeq, wrap_add_l, diff_wrap.
    replace (D - (D + 1)) with (-1) by lia. reflexivity.
  - pose proof (Hpub 0%nat x eq_refl) as Hc. rewrite Z.add_0_r in Hc.
    rewrite Hc. cbn [m_pos]. rewrite Hdeq, wrap_add_l, diff_wrap, Z.sub_diag.
    reflexivity.
Qed.

(** *** Histories *)

(** A call on a queue that holds [l] returns what the spec says, after as
    many iterations as it met spurious failures of its exchange, and one
    more. *)
Lemma retries_le N (o : op T) l : (retries N o l <= spurious_of o)%nat.
Proof.
  destruct o as [data s|s]; cbn [retries spurious_of].
  - destruct (Z.of_nat (length l) <? N); lia.
  - destruct l; lia.
Qed.

Lemma retries_succeeded N (o : op T) l :
  retries N o l
  = if succeeded (snd (spec_op N o l)) then spurious_of o else O.
Proof.
  destruct o as [data s|s]; cbn [retries spurious_of spec_op].
  - unfold spec_enqueue. now destruct (Z.of_nat (length l) <? N).
  - now destruct l.
Qed.

(** A call on a queue that holds [l] returns what the spec says, in the
    iteration after its last failed exchange. *)
Lemma run_op_Rep q D l o :
  Rep q D l ->
  exists q',
    (forall fuel,
        run_op fuel o q
        = if (retries (m_capacity q + 1) o l <? fuel)%nat
          then Ret (q', snd (spec_op (m_capacity q + 1) o l))
          else Spinning)
    /\ m_capacity q' = m_capacity q
    /\ Rep q' (D + served (snd (spec_op (m_capacity q + 1) o l)))
           (fst (spec_op (m_capacity q + 1) o l)).
Proof.
  intros HR. pose proof (rep_bound _ _ _ _ HR) as Hbound.
  destruct o as [data s|s]; cbn [spec_op retries run_op].
  - unfold spec_enqueue.
    destruct (Z.ltb_spec (Z.of_nat (length l)) (m_capacity q + 1)) as [Hroom|Hfull].
    + destruct (enqueue_room q D l data HR Hroom) as (q' & Hrun & Hcap & HR').
      exists q'. cbn [fst snd served]. rewrite Z.add_0_r.
      split; [|split; assumption].
      intros fuel. rewrite Hrun. now destruct (s <? fuel)%nat.
    + exists q. cbn [fst snd served]. rewrite Z.add_0_r.
      split; [|split; [reflexivity|assumption]].
      intros fuel. rewrite (enqueue_full q D l data HR ltac:(lia)).
      now destruct (0 <? fuel)%nat.
  - destruct l as [|x l]; cbn [spec_dequeue fst snd served].
    + exists q. rewrite Z.add_0_r.
      split; [|split; [reflexivity|assumption]].
      intros fuel. rewrite (dequeue_none q D HR).
      now destruct (0 <? fuel)%nat.
    + destruct (dequeue_some q D x l HR) as (q' & Hrun & Hcap & HR').
      exists q'. split; [|split; assumption].
      intros fuel. rewrite Hrun. now destruct (s <? fuel)%nat.
Qed.

Lemma served_dequeued (e : event T) es :
  Z.of_nat (length (dequeued (e :: es)))
  = served e + Z.of_nat (length (dequeued es)).
Proof. destruct e as [data [|]|[data|]]; cbn [dequeued served length]; lia. Qed.

(** A history that returns gave the responses of the spec. *)
Lemma run_Rep fuel ops : forall q D l q' es,
  Rep q D l ->
  run fuel ops q = Ret (q', es) ->
  es = snd (spec_run (m_capacity q + 1) ops l)
  /\ m_capacity q' = m_capacity q
  /\ Rep q' (D + Z.of_nat (length (dequeued es)))
         (fst (spec_run (m_capacity q + 1) ops l)).
Proof.
  induction ops as [|o ops IH]; intros q D l q' es HR Hrun.
  - injection Hrun as <- <-. cbn. rewrite Z.add_0_r. auto.
  - cbn [run spec_run] in *.
    destruct (run_op_Rep q D l o HR) as (q1 & Hop & Hcap & HR1).
    rewrite Hop in Hrun.
    destruct (retries _ o l <? fuel)%nat; [|discriminate].
    cbn [bind] in Hrun.
    destruct (run fuel ops q1) as [[q2 es']| |] eqn:Hrest; try discriminate.
    injection Hrun as <- <-.
    destruct (IH _ _ _ _ _ HR1 Hrest) as (Hes & Hcap2 & HR2).
    rewrite Hcap in Hes, Hcap2, HR2.
    destruct (spec_op (m_capacity q + 1) o l) as [l1 e].
    cbn [fst snd] in *.
    destruct (spec_run (m_capacity q + 1) ops l1) as [l2 es2].
    cbn [fst snd] in *. subst es'.
    split; [reflexivity|]. split; [assumption|].
    rewrite served_dequeued, Z.add_assoc. assumption.
Qed.

(** A history returns when every call has fuel for the failures of its
    exchange and one more iteration. *)
Lemma run_returns fuel ops : forall q D l,
  Rep q D l ->
  Forall (fun o => (spurious_of o < fuel)%nat) ops ->
  exists q', run fuel ops q
             = Ret (q', snd (spec_run (m_capacity q + 1) ops l)).
Proof.
  induction ops as [|o ops IH]; intros q D l HR Hfuel.
  - exists q. reflexivity.
  - apply Forall_cons in Hfuel as [Ho Hfuel].
    cbn [run spec_run].
    destruct (run_op_Rep q D l o HR) as (q1 & Hop & Hcap & HR1).
    rewrite Hop.
    pose proof (retries_le (m_capacity q + 1) o l).
    destruct (Nat.ltb_spec (retries (m_capacity q + 1) o l) fuel); [|lia].
    cbn [bind].
    destruct (IH _ _ _ HR1 Hfuel) as (q2 & Hrest).
    rewrite Hrest, Hcap. cbn [bind].
    destruct (spec_op (m_capacity q + 1) o l) as [l1 e].
    cbn [fst snd] in *.
    destruct (spec_run (m_capacity q + 1) ops l1) as [l2 es2].
    exists q2. reflexivity.
Qed.

(** What the caller sees only depends on the values held. *)
Lemma responses_Rep fuel ops : forall q1 q2 D1 D2 l,
  Rep q1 D1 l -> Rep q2 D2 l -> m_capacity q1 = m_capacity q2 ->
  responses (run fuel ops q1) = responses (run fuel ops q2).
Proof.
  induction ops as [|o ops IH]; intros q1 q2 D1 D2 l HR1 HR2 Hcap.
  - reflexivity.
  - cbn [run].
    destruct (run_op_Rep q1 D1 l o HR1) as (q1' & Hop1 & Hcap1 & HR1').
    destruct (run_op_Rep q2 D2 l o HR2) as (q2' & Hop2 & Hcap2 & HR2').
    rewrite Hop1, Hop2, <- Hcap.
    destruct (retries _ o l <? fuel)%nat; [|reflexivity].
    cbn [bind]. rewrite <- Hcap in HR2'.
    specialize (IH q1' q2' _ _ _ HR1' HR2' ltac:(congruence)).
    unfold responses in *.
    destruct (run fuel ops q1') as [[? ?]| |], (run fuel ops q2') as [[? ?]| |];
      cbn [bind] in *; congruence.
Qed.

(** In the queue of the spec, the values taken out and the values held are
    the values put in, in their order. *)
Lemma spec_run_fifo N ops : forall (l : list T),
  l ++ enqueued (snd (spec_run N ops l))
  = dequeued (snd (spec_run N ops l)) ++ fst (spec_run N ops l).
Proof.
  induction ops as [|o ops IH]; intros l; cbn [spec_run].
  - cbn. now rewrite app_nil_r.
  - destruct o as [data s|s]; cbn [spec_op].
    + unfold spec_enqueue. destruct (Z.of_nat (length l) <? N).
      * specialize (IH (l ++ [data])).
        destruct (spec_run N ops (l ++ [data])) as [l2 es].
        cbn [fst snd enqueued dequeued] in *.
        rewrite <- IH, <- app_assoc. reflexivity.
      * specialize (IH l). destruct (spec_run N ops l) as [l2 es].
        cbn [fst snd enqueued dequeued] in *. exact IH.
    + destruct l as [|x l]; cbn [spec_dequeue].
      * specialize (IH []). destruct (spec_run N ops []) as [l2 es].
        cbn [fst snd enqueued dequeued] in *. exact IH.
      * specialize (IH l). destruct (spec_run N ops l) as [l2 es].
        cbn [fst snd enqueued dequeued] in *.
        rewrite <- app_comm_cons, IH. reflexivity.
Qed.

(** *** Consequences *)

(** The distance of the cursors, in the arithmetic of [size_t], is the
    number of values held. *)
Lemma Rep_distance q D l :
  Rep q D l ->
  wrap (m_enqueue_pos q - m_dequeue_pos q) = Z.of_nat (length l).
Proof.
  intros HR. pose proof (Rep_capacity _ _ _ HR) as HN.
  destruct HR as [Hpow Hring HD Hdeq Henq Hbound Hpub Harm].
  rewrite Henq, Hdeq, wrap_sub.
  replace (D + Z.of_nat (length l) - D) with (Z.of_nat (length l)) by lia.
  apply wrap_small. unfold size_max, intptr_max in *.
  change (2 ^ 64) with (2 * 2 ^ 63). lia.
Qed.

(** Every history of a constructed queue leaves it holding the values put
    in and not yet taken out. *)
Lemma history_Rep raw n (q0 q : mpmc_bq T) fuel ops es :
  0 <= n < size_max ->
  construct raw n = Some q0 ->
  run fuel ops q0 = Ret (q, es) ->
  exists pending,
    Rep q (Z.of_nat (length (dequeued es))) pending
    /\ enqueued es = dequeued es ++ pending
    /\ m_capacity q = m_capacity q0
    /\ m_capacity q0 + 1 = n.
Proof.
  intros Hn Hq0 Hrun.
  pose proof (construct_Rep raw n q0 Hn Hq0) as HR0.
  destruct (run_Rep fuel ops q0 0 [] q es HR0 Hrun) as (Hes & Hcap & HR).
  pose proof (spec_run_fifo (m_capacity q0 + 1) ops []) as Hfifo.
  rewrite <- Hes in Hfifo. rewrite Z.add_0_l in HR.
  exists (fst (spec_run (m_capacity q0 + 1) ops [])).
  split; [assumption|]. split; [assumption|]. split; [assumption|].
  destruct (construct_capacity raw n q0 Hn Hq0) as [_ ->]. lia.
Qed.

(** Dequeues take out the values held, oldest first, and then find the
    queue empty. *)
Lemma drain_Rep l : forall q D fuel ss,
  Rep q D l ->
  length ss = length l ->
  covers fuel ss = true ->
  exists q',
    run fuel (drain ss) q
    = Ret (q', List.map (fun v => EvDequeue (Some v)) l)
    /\ Rep q' (D + Z.of_nat (length l)) [].
Proof.
  induction l as [|x l IH]; intros q D fuel ss HR Hlen Hfuel.
  - destruct ss; [|discriminate]. exists q. cbn. rewrite Z.add_0_r. auto.
  - destruct ss as [|s ss]; [discriminate|].
    cbn [covers forallb] in Hfuel. apply andb_true_iff in Hfuel as [Hs Hss].
    destruct (dequeue_some q D x l HR) as (q1 & Hdeq & _ & HR1).
    destruct (IH q1 (D + 1) fuel ss HR1 ltac:(now injection Hlen) Hss)
      as (q' & Hrun & HR').
    exists q'. cbn [drain List.map run run_op]. rewrite Hdeq, Hs. cbn [bind].
    fold (@drain T ss). rewrite Hrun. cbn [bind]. split; [reflexivity|].
    cbn [length]. replace (D + Z.of_nat (S (length l)))
      with (D + 1 + Z.of_nat (length l)) by lia.
    assumption.
Qed.

(** Round trips move both cursors on and leave the queue empty. *)
Lemma round_trips_Rep (data : T) (k : nat) : forall q D,
  Rep q D [] ->
  exists q' es,
    run 1 (round_trips data k) q = Ret (q', es)
    /\ Rep q' (D + Z.of_nat k) []
    /\ m_capacity q' = m_capacity q.
Proof.
  induction k as [|k IH]; intros q D HR.
  - exists q, []. cbn. rewrite Z.add_0_r. auto.
  - pose proof (Rep_capacity _ _ _ HR) as HN.
    destruct (enqueue_room q D [] data HR ltac:(simpl; lia))
      as (q1 & Henq & Hcap1 & HR1).
    destruct (dequeue_some q1 D data [] HR1) as (q2 & Hdeq & Hcap2 & HR2).
    destruct (IH q2 (D + 1) HR2) as (q' & es & Hrun & HR' & Hcap').
    exists q', (EvEnqueue data true :: EvDequeue (Some data) :: es).
    cbn [round_trips run run_op]. rewrite Henq. cbn [Nat.ltb Nat.leb bind].
    rewrite Hdeq. cbn [Nat.ltb Nat.leb bind]. rewrite Hrun. cbn [bind].
    split; [reflexivity|]. split; [|congruence].
    replace (D + Z.of_nat (S k)) with (D + 1 + Z.of_nat k) by lia.
    assumption.
Qed.

End Refinement.

Lemma pow2_in_range k : 1 <= k <= 63 -> 0 <= 2 ^ k < size_max.
Proof.
  intros Hk. pose proof (pow2_pos k ltac:(lia)).
  pose proof (pow2_le_63 k ltac:(lia)).
  unfold size_max, intptr_max in *. change (2 ^ 64) with (2 * 2 ^ 63). lia.
Qed.

(** The constructor accepts the powers of two from 2 on. *)
Lemma construct_pow2 {T : Type} (raw : nat -> Z) k :
  1 <= k <= 63 -> exists q : mpmc_bq T, construct raw (2 ^ k) = Some q.
Proof.
  intros Hk. unfold construct, ut_a.
  destruct (valid_capacity_pow2 (2 ^ k) (pow2_in_range k Hk)) as [_ ->]; eauto.
Qed.

(** ** The contract *)

Section Contract.

Context {T : Type}.
Implicit Types (q : mpmc_bq T) (c : Cell T) (l : list T).

(** C1.  In every state a constructed queue of capacity [n] reaches by a
    sequence of enqueue and dequeue calls, the difference
    [enqueue_pos - dequeue_pos], taken as the code takes it in the
    arithmetic of [size_t], lies in [[0, n]]; it is the number of values
    enqueued and not yet dequeued. *)
Theorem capacity_bound raw n (q0 q : mpmc_bq T) fuel ops es :
  0 <= n < size_max ->
  construct raw n = Some q0 ->
  run fuel ops q0 = Ret (q, es) ->
  0 <= wrap (m_enqueue_pos q - m_dequeue_pos q) <= n
  /\ wrap (m_enqueue_pos q - m_dequeue_pos q)
     = Z.of_nat (length (enqueued es)) - Z.of_nat (length (dequeued es)).
Proof.
  intros Hn Hq0 Hrun.
  destruct (history_Rep raw n q0 q fuel ops es Hn Hq0 Hrun)
    as (pending & HR & Hfifo & Hcap & HN).
  rewrite (Rep_distance q _ pending HR).
  pose proof (rep_bound _ _ _ _ HR) as Hbound.
  rewrite Hfifo, length_app. lia.
Qed.

(** C2.  After any sequential history of a constructed queue, the values
    dequeued so far are, in order, the first of the values enqueued; the
    following dequeues return the remaining ones in the order of their
    enqueues, each once, and the dequeue after them returns [false].  So
    every value enqueued is returned by exactly one dequeue, none is
    invented, and the order is that of the tickets. *)
Theorem fifo_no_loss_no_duplication raw n (q0 q : mpmc_bq T) fuel ops es fuel' ss :
  0 <= n < size_max ->
  construct raw n = Some q0 ->
  run fuel ops q0 = Ret (q, es) ->
  (length (dequeued es) + length ss = length (enqueued es))%nat ->
  (0 < fuel')%nat ->
  covers fuel' ss = true ->
  exists pending q',
    enqueued es = dequeued es ++ pending
    /\ run fuel' (drain ss) q
       = Ret (q', List.map (fun v => EvDequeue (Some v)) pending)
    /\ forall s, dequeue fuel' s q' = Ret (q', None).
Proof.
  intros Hn Hq0 Hrun Hlen Hfuel Hss.
  destruct (history_Rep raw n q0 q fuel ops es Hn Hq0 Hrun)
    as (pending & HR & Hfifo & _ & _).
  assert (Hlen' : length ss = length pending).
  { rewrite Hfifo, length_app in Hlen. lia. }
  destruct (drain_Rep pending q _ fuel' ss HR Hlen' Hss) as (q' & Hdrain & HR').
  exists pending, q'. split; [assumption|]. split; [assumption|].
  intros s. rewrite (dequeue_none q' _ HR').
  destruct fuel'; [lia|reflexivity].
Qed.

(** C3.  The scenario of the spec on a queue constructed with [n = 4]. *)
Theorem scenario_capacity_4 raw (v10 v20 v30 v40 v50 : T) :
  exists q0 q : mpmc_bq T,
    construct raw 4 = Some q0
    /\ empty 1 q0 = Ret true
    /\ run 1 [Dequeue 0;
              Enqueue v10 0; Enqueue v20 0; Enqueue v30 0; Enqueue v40 0;
              Enqueue v50 0;
              Dequeue 0; Dequeue 0; Dequeue 0; Dequeue 0;
              Dequeue 0] q0
       = Ret (q, [EvDequeue None;
                  EvEnqueue v10 true; EvEnqueue v20 true;
                  EvEnqueue v30 true; EvEnqueue v40 true;
                  EvEnqueue v50 false;
                  EvDequeue (Some v10); EvDequeue (Some v20);
                  EvDequeue (Some v30); EvDequeue (Some v40);
                  EvDequeue None]).
Proof.
  eexists _, _. split; [reflexivity|]. split; [reflexivity|].
  vm_compute. reflexivity.
Qed.

(** C4.  After a history of a constructed queue of capacity [n] in which
    [k * n] enqueues and [k * n] dequeues succeeded, both cursors have
    advanced by [k * n], every cell's sequence is its initial value plus
    [k * n] (all in the arithmetic of [size_t]), and every further history
    gets the responses it gets from the freshly constructed queue. *)
Theorem wrap_correctness raw n (q0 q : mpmc_bq T) (k : nat) fuel ops es :
  0 <= n < size_max ->
  construct raw n = Some q0 ->
  run fuel ops q0 = Ret (q, es) ->
  Z.of_nat (length (enqueued es)) = Z.of_nat k * n ->
  Z.of_nat (length (dequeued es)) = Z.of_nat k * n ->
  m_enqueue_pos q = wrap (m_enqueue_pos q0 + Z.of_nat k * n)
  /\ m_dequeue_pos q = wrap (m_dequeue_pos q0 + Z.of_nat k * n)
  /\ m_capacity q = m_capacity q0
  /\ length (m_ring q) = length (m_ring q0)
  /\ (forall i : nat,
         Z.of_nat i < n ->
         exists c0 c,
           m_ring q0 !! i = Some c0
           /\ m_ring q !! i = Some c
           /\ m_pos c = wrap (m_pos c0 + Z.of_nat k * n))
  /\ (forall fuel' ops',
         responses (run fuel' ops' q) = responses (run fuel' ops' q0)).
Proof.
  intros Hn Hq0 Hrun Henq Hdeq.
  destruct (history_Rep raw n q0 q fuel ops es Hn Hq0 Hrun)
    as (pending & HR & Hfifo & Hcap & HN).
  pose proof (construct_Rep raw n q0 Hn Hq0) as HR0.
  assert (pending = []) as ->.
  { apply length_zero_iff_nil. rewrite Hfifo, length_app in Henq. lia. }
  rewrite Hdeq in HR.
  pose proof (rep_enqueue_pos _ _ _ _ HR) as He.
  pose proof (rep_dequeue_pos _ _ _ _ HR) as Hd.
  pose proof (rep_ring _ _ _ _ HR) as Hring.
  pose proof (rep_ring _ _ _ _ HR0) as Hring0.
  cbn [length] in He. rewrite Z.add_0_r in He.
  rewrite (rep_enqueue_pos _ _ _ _ HR0), (rep_dequeue_pos _ _ _ _ HR0).
  cbn [length]. rewrite !Z.add_0_r, !wrap_add_l, !Z.add_0_l.
  split; [assumption|]. split; [assumption|]. split; [assumption|].
  split; [lia|]. split.
  - intros i Hi.
    destruct (rep_armed _ _ _ _ HR (Z.of_nat i)) as (c & Hc & Hseq);
      [cbn [length]; lia|].
    exists (mkCell (Z.of_nat i) None), c.
    split; [now apply (lookup_construct raw n)|].
    split.
    + rewrite <- Hc. f_equal. unfold slot. rewrite Hcap, HN.
      rewrite Z.add_comm, Z_mod_plus_full, Z.mod_small by lia. lia.
    + cbn [m_pos]. rewrite Hseq. f_equal. lia.
  - intros fuel' ops'.
    apply (responses_Rep fuel' ops' q q0 _ _ [] HR HR0 Hcap).
Qed.

(** C5.  A call of [enqueue] or [dequeue] that returns [false] has left the
    queue (both cursors, every sequence, every payload) as it found it. *)
Theorem failed_call_changes_nothing fuel s q (data : T) q' :
  (enqueue fuel s q data = Ret (q', false) -> q' = q)
  /\ (dequeue fuel s q = Ret (q', None) -> q' = q).
Proof.
  split; intros Hcall.
  - unfold enqueue in Hcall.
    destruct (enqueue_loop fuel s q (m_enqueue_pos q)) as [[q1 claim]| |] eqn:Hloop;
      try discriminate.
    apply enqueue_loop_inv in Hloop.
    destruct claim as [pos|]; cbn [bind] in Hcall; [discriminate|].
    injection Hcall as <-. assumption.
  - unfold dequeue in Hcall.
    destruct (dequeue_loop fuel s q (m_dequeue_pos q)) as [[q1 claim]| |] eqn:Hloop;
      try discriminate.
    apply dequeue_loop_inv in Hloop.
    destruct claim as [pos|]; cbn [bind] in Hcall.
    + destruct (m_ring q1 !! cell_index q1 pos) as [c|]; [|discriminate].
      destruct (m_data c); discriminate.
    + injection Hcall as <-. assumption.
Qed.

(** C10.  A dequeue that returns [true] with [data] leaves a copy of [data]
    in the cell of its ticket [pos]; all it changed is [dequeue_pos], now
    [pos + 1], and the sequence of that cell, now [pos + N]. *)
Theorem dequeue_keeps_payload fuel s q q' (data : T) :
  dequeue fuel s q = Ret (q', Some data) ->
  let pos := m_dequeue_pos q in
  let i := cell_index q pos in
  m_dequeue_pos q' = wrap (pos + 1)
  /\ m_enqueue_pos q' = m_enqueue_pos q
  /\ m_capacity q' = m_capacity q
  /\ length (m_ring q') = length (m_ring q)
  /\ (exists c,
         m_ring q !! i = Some c
         /\ m_data c = Some data
         /\ m_ring q' !! i = Some (mkCell (wrap (pos + capacity q)) (Some data)))
  /\ (forall j, j <> i -> m_ring q' !! j = m_ring q !! j).
Proof.
  intros Hcall pos i. subst pos i. unfold dequeue in Hcall.
  destruct (dequeue_loop fuel s q (m_dequeue_pos q)) as [[q1 claim]| |] eqn:Hloop;
    try discriminate.
  apply dequeue_loop_inv in Hloop.
  destruct claim as [pos|]; cbn [bind] in Hcall; [|discriminate].
  destruct Hloop as [-> ->].
  change (cell_index (set_dequeue_pos q _) ?p) with (cell_index q p) in Hcall.
  change (m_ring (set_dequeue_pos q _)) with (m_ring q) in Hcall.
  change (m_capacity (set_dequeue_pos q _)) with (m_capacity q) in Hcall.
  destruct (m_ring q !! cell_index q (m_dequeue_pos q)) as [c|] eqn:Hc;
    [|discriminate].
  destruct (m_data c) as [data'|] eqn:Hdata; [|discriminate].
  injection Hcall as <- <-.
  cbn [set_ring set_dequeue_pos m_ring m_capacity m_enqueue_pos m_dequeue_pos].
  split; [reflexivity|]. split; [reflexivity|]. split; [reflexivity|].
  split; [apply length_store_pos|]. split.
  - exists c. split; [reflexivity|]. split; [assumption|].
    rewrite (lookup_store_pos_eq _ _ _ _ Hc), Hdata. do 2 f_equal.
    unfold capacity. now rewrite wrap_add_l, wrap_add_r, Z.add_assoc.
  - intros j Hj. now apply lookup_store_pos_ne.
Qed.

(** C6.  Construction with a capacity [n] aborts exactly when [n] is not a
    power of two or [n < 2]; the capacities 0, 1, 3 and 6 are rejected, and
    every power of two from 2 on that is a [size_t] is accepted. *)
Theorem construct_rejects_invalid_capacity (raw : nat -> Z) :
  (forall n,
      0 <= n < size_max ->
      construct (T:=T) raw n = None
      <-> (~ exists k, 0 <= k /\ n = 2 ^ k) \/ n < 2)
  /\ construct (T:=T) raw 0 = None
  /\ construct (T:=T) raw 1 = None
  /\ construct (T:=T) raw 3 = None
  /\ construct (T:=T) raw 6 = None
  /\ (forall k, 1 <= k <= 63 ->
                exists q : mpmc_bq T, construct raw (2 ^ k) = Some q).
Proof.
  assert (Hsome : forall n,
             (2 <=? n) && (Z.land n (wrap (n - 1)) =? 0) = true ->
             exists q : mpmc_bq T, construct raw n = Some q).
  { intros n Hvalid. unfold construct, ut_a. rewrite Hvalid. eauto. }
  assert (Hnone : forall n,
             (2 <=? n) && (Z.land n (wrap (n - 1)) =? 0) = false ->
             construct (T:=T) raw n = None).
  { intros n Hvalid. unfold construct, ut_a. now rewrite Hvalid. }
  split; [|repeat split; try (apply Hnone; reflexivity)].
  - intros n Hn.
    destruct ((2 <=? n) && (Z.land n (wrap (n - 1)) =? 0)) eqn:Hvalid.
    + destruct (Hsome n Hvalid) as [q Hq]. rewrite Hq.
      apply valid_capacity_pow2 in Hvalid as (k & Hk & Hnk); [|assumption].
      split; [discriminate|]. intros [Hnot|Hsmall]; exfalso.
      * apply Hnot. exists k. split; [lia|assumption].
      * assert (2 ^ 1 <= 2 ^ k) by (apply Z.pow_le_mono_r; lia).
        simpl in *. lia.
    + rewrite (Hnone n Hvalid). split; [|reflexivity]. intros _.
      destruct (Z_lt_le_dec n 2) as [Hsmall|Hbig]; [now right|left].
      intros (k & Hk & Hnk).
      assert (Hyes : (2 <=? n) && (Z.land n (wrap (n - 1)) =? 0) = true);
        [|congruence].
      apply valid_capacity_pow2; [assumption|].
      exists k. split; [|assumption]. split.
      * destruct (Z.eq_dec k 0) as [->|]; [simpl in Hnk; lia|lia].
      * destruct (Z_lt_le_dec 63 k) as [Hgt|]; [|lia].
        assert (2 ^ 64 <= 2 ^ k) by (apply Z.pow_le_mono_r; lia).
        unfold size_max in Hn. lia.
  - intros k Hk. now apply construct_pow2.
Qed.

(** C7.  Construction with a valid capacity [2 ^ k] returns a queue whose
    cursors are both 0 and whose cell at every index [i] has sequence [i],
    whatever the storage held before. *)
Theorem construct_initial_state (raw : nat -> Z) k :
  1 <= k <= 63 ->
  exists q : mpmc_bq T,
    construct raw (2 ^ k) = Some q
    /\ m_enqueue_pos q = 0
    /\ m_dequeue_pos q = 0
    /\ capacity q = 2 ^ k
    /\ Z.of_nat (length (m_ring q)) = 2 ^ k
    /\ forall i : nat,
        Z.of_nat i < 2 ^ k ->
        exists c, m_ring q !! i = Some c /\ m_pos c = Z.of_nat i.
Proof.
  intros Hk.
  destruct (construct_pow2 (T:=T) raw k Hk) as [q Hq].
  pose proof (pow2_in_range k Hk) as Hn.
  pose proof (construct_Rep raw _ q Hn Hq) as HR.
  destruct (construct_capacity raw _ q Hn Hq) as [_ Hcap].
  exists q. split; [assumption|].
  split; [exact (rep_enqueue_pos _ _ _ _ HR)|].
  split; [exact (rep_dequeue_pos _ _ _ _ HR)|].
  split.
  { unfold capacity. rewrite Hcap.
    replace (2 ^ k - 1 + 1) with (2 ^ k) by lia. now apply wrap_small. }
  split; [rewrite (rep_ring _ _ _ _ HR); lia|].
  intros i Hi. eexists. split; [now apply (lookup_construct raw (2 ^ k))|].
  reflexivity.
Qed.

(** C9.  On every state a constructed queue reaches, a call of [enqueue] or
    [dequeue] returns.  A call that claims its ticket (the [diff == 0] branch)
    leaves its loop in the iteration after the last spurious failure of its
    weak exchange, the first iteration when it meets none; a call that finds
    the queue full or empty returns in its first iteration. *)
Theorem calls_return raw n (q0 q : mpmc_bq T) fuel ops es (o : op T) :
  0 <= n < size_max ->
  construct raw n = Some q0 ->
  run fuel ops q0 = Ret (q, es) ->
  exists (failures : nat) (r : mpmc_bq T * event T),
    failures = (if succeeded (snd r) then spurious_of o else O)
    /\ (forall fuel',
           run_op fuel' o q
           = if (failures <? fuel')%nat then Ret r else Spinning)
    /\ (forall fuel', (spurious_of o < fuel')%nat -> run_op fuel' o q = Ret r)
    /\ (spurious_of o = 0%nat -> run_op 1 o q = Ret r).
Proof.
  intros Hn Hq0 Hrun.
  destruct (history_Rep raw n q0 q fuel ops es Hn Hq0 Hrun)
    as (pending & HR & _ & _ & _).
  destruct (run_op_Rep q _ pending o HR) as (q' & Hop & _ & _).
  pose proof (retries_le (m_capacity q + 1) o pending) as Hle.
  exists (retries (m_capacity q + 1) o pending),
         (q', snd (spec_op (m_capacity q + 1) o pending)).
  split; [apply retries_succeeded|]. split; [exact Hop|]. split.
  - intros fuel' Hfuel. rewrite Hop.
    destruct (Nat.ltb_spec (retries (m_capacity q + 1) o pending) fuel');
      [reflexivity|lia].
  - intros Hnone. rewrite Hop.
    destruct (Nat.ltb_spec (retries (m_capacity q + 1) o pending) 1);
      [reflexivity|lia].
Qed.

End Contract.

(** ** The contract at work

    The theorems above at a queue of [Z] of capacity 2, built on storage that
    held zeros. *)

Ltac in_range := split; vm_compute; [discriminate | reflexivity].

Lemma capacity_bound_witness :
  exists (q0 q : mpmc_bq Z) es,
    construct (fun _ => 0) 2 = Some q0
    /\ run 2 [Enqueue 5 0; Enqueue 6 1; Enqueue 7 0; Dequeue 0] q0 = Ret (q, es)
    /\ 0 <= wrap (m_enqueue_pos q - m_dequeue_pos q) <= 2
    /\ wrap (m_enqueue_pos q - m_dequeue_pos q)
       = Z.of_nat (length (enqueued es)) - Z.of_nat (length (dequeued es)).
Proof.
  eexists _, _, _.
  split; [reflexivity|]. split; [vm_compute; reflexivity|].
  eapply (capacity_bound (fun _ => 0) 2 _ _ 2
           [Enqueue 5 0; Enqueue 6 1; Enqueue 7 0; Dequeue 0]);
    [in_range | reflexivity | vm_compute; reflexivity].
Defined.

Lemma fifo_no_loss_no_duplication_witness :
  exists (q0 q : mpmc_bq Z) es,
    construct (fun _ => 0) 2 = Some q0
    /\ run 2 [Enqueue 5 0; Enqueue 6 0; Dequeue 1; Enqueue 7 1] q0 = Ret (q, es)
    /\ exists pending q',
        enqueued es = dequeued es ++ pending
        /\ run 2 (drain [0; 1]%nat) q
           = Ret (q', List.map (fun v => EvDequeue (Some v)) pending)
        /\ forall s, dequeue 2 s q' = Ret (q', None).
Proof.
  eexists _, _, _.
  split; [reflexivity|]. split; [vm_compute; reflexivity|].
  eapply (fifo_no_loss_no_duplication (fun _ => 0) 2 _ _ 2
           [Enqueue 5 0; Enqueue 6 0; Dequeue 1; Enqueue 7 1] _ 2 [0; 1]%nat);
    [in_range | reflexivity | vm_compute; reflexivity
     | reflexivity | lia | reflexivity].
Defined.

Lemma wrap_correctness_witness :
  exists (q0 q : mpmc_bq Z) es,
    construct (fun _ => 0) 2 = Some q0
    /\ run 1 (round_trips 5 4) q0 = Ret (q, es)
    /\ m_enqueue_pos q = 4 /\ m_dequeue_pos q = 4
    /\ List.map m_pos (m_ring q0) = [0; 1]
    /\ List.map m_pos (m_ring q) = [4; 5]
    /\ forall fuel' ops',
        responses (run fuel' ops' q) = responses (run fuel' ops' q0).
Proof.
  eexists _, _, _.
  split; [reflexivity|]. split; [vm_compute; reflexivity|].
  split; [reflexivity|]. split; [reflexivity|].
  split; [reflexivity|]. split; [reflexivity|].
  eapply (wrap_correctness (fun _ => 0) 2 _ _ 2 1 (round_trips 5 4));
    [in_range | reflexivity | vm_compute; reflexivity | reflexivity | reflexivity].
Defined.

Lemma failed_call_changes_nothing_witness :
  let full := mkQueue [mkCell 1 (Some 5); mkCell 2 (Some 6)] 1 2 0 in
  let fresh := mkQueue [mkCell 0 (@None Z); mkCell 1 None] 1 0 0 in
  exists q1 q2,
    enqueue 1 0 full 7 = Ret (q1, false) /\ q1 = full
    /\ dequeue 1 0 fresh = Ret (q2, None) /\ q2 = fresh.
Proof.
  intros full fresh. eexists _, _.
  split; [reflexivity|]. split.
  - apply (proj1 (failed_call_changes_nothing 1 0 full 7 _)). reflexivity.
  - split; [reflexivity|].
    apply (proj2 (failed_call_changes_nothing 1 0 fresh 7 _)). reflexivity.
Defined.

Lemma construct_rejects_invalid_capacity_witness :
  0 <= 6 < size_max
  /\ (construct (T:=Z) (fun _ => 0) 6 = None
      <-> (~ exists k, 0 <= k /\ 6 = 2 ^ k) \/ 6 < 2)
  /\ 1 <= 3 <= 63
  /\ exists q : mpmc_bq Z, construct (fun _ => 0) (2 ^ 3) = Some q.
Proof.
  pose proof (construct_rejects_invalid_capacity (T:=Z) (fun _ => 0))
    as (Hiff & _ & _ & _ & _ & Hpow).
  split; [in_range|]. split; [apply Hiff; in_range|].
  split; [lia|]. apply Hpow. lia.
Defined.

Lemma construct_initial_state_witness :
  1 <= 3 <= 63
  /\ exists q : mpmc_bq Z,
      construct (fun _ => 0) (2 ^ 3) = Some q
      /\ m_enqueue_pos q = 0
      /\ m_dequeue_pos q = 0
      /\ capacity q = 2 ^ 3
      /\ Z.of_nat (length (m_ring q)) = 2 ^ 3
      /\ forall i : nat,
          Z.of_nat i < 2 ^ 3 ->
          exists c, m_ring q !! i = Some c /\ m_pos c = Z.of_nat i.
Proof.
  split; [lia|]. apply (construct_initial_state (T:=Z) (fun _ => 0) 3). lia.
Defined.

Lemma calls_return_witness :
  exists (q0 q : mpmc_bq Z) es (failures : nat) r,
    construct (fun _ => 0) 2 = Some q0
    /\ run 1 [Enqueue 5 0] q0 = Ret (q, es)
    /\ failures = (if succeeded (snd r) then 3%nat else O)
    /\ (forall fuel',
           run_op fuel' (Enqueue 6 3) q
           = if (failures <? fuel')%nat then Ret r else Spinning).
Proof.
  destruct (calls_return (T:=Z) (fun _ => 0) 2 _ _ 1 [Enqueue 5 0] _
              (Enqueue 6 3) ltac:(in_range) eq_refl eq_refl)
    as (failures & r & Hfail & Hrun & _).
  eexists _, _, _, failures, r.
  split; [reflexivity|]. split; [reflexivity|]. split; assumption.
Defined.

Lemma dequeue_keeps_payload_witness :
  let q := mkQueue [mkCell 1 (Some 5); mkCell 1 (@None Z)] 1 1 0 in
  let q' := mkQueue [mkCell 2 (Some 5); mkCell 1 (@None Z)] 1 1 1 in
  dequeue 1 0 q = Ret (q', Some 5)
  /\ m_dequeue_pos q' = 1
  /\ m_ring q' !! 0%nat = Some (mkCell 2 (Some 5))
  /\ m_ring q' !! 1%nat = m_ring q !! 1%nat.
Proof.
  intros q q'.
  destruct (dequeue_keeps_payload 1 0 q q' 5 eq_refl)
    as (Hpos & _ & _ & _ & (c & _ & _ & Hc) & Hrest).
  split; [reflexivity|]. split; [exact Hpos|]. split; [exact Hc|].
  apply Hrest. discriminate.
Defined.

(** C9 as the spec words it, with an exchange that succeeds on the first
    iteration whenever no other thread runs, does not hold.  On a fresh queue of capacity 2 the first
    iteration of [enqueue] finds its cell armed ([diff = 0]); the weak
    exchange fails spuriously, and the call is still in its loop after that
    iteration.  It returns [true] in the second. *)
Lemma first_exchange_may_fail :
  let q0 := mkQueue [mkCell 0 (@None Z); mkCell 1 None] 1 0 0 in
  construct (fun _ => 0) 2 = Some q0
  /\ (exists c, m_ring q0 !! cell_index q0 (m_enqueue_pos q0) = Some c
                /\ diff (m_pos c) (m_enqueue_pos q0) = 0)
  /\ compare_exchange_weak true (m_enqueue_pos q0) (m_enqueue_pos q0)
                           (wrap (m_enqueue_pos q0 + 1))
     = (m_enqueue_pos q0, m_enqueue_pos q0, false)
  /\ enqueue 1 1 q0 7 = Spinning
  /\ enqueue 2 1 q0 7
     = Ret (mkQueue [mkCell 1 (Some 7); mkCell 1 None] 1 1 0, true).
Proof.
  intros q0. split; [reflexivity|].
  split; [exists (mkCell 0 None); split; reflexivity|].
  split; [reflexivity|]. split; reflexivity.
Qed.


(** ** More of the queue

    What the code shows beyond the contract above: [capacity], [empty], the
    branch the loops never take, the effect of a successful [enqueue], and the
    protocol of the cells. *)

Section Protocol.

Context {T : Type}.
Implicit Types (q : mpmc_bq T) (c : Cell T) (l : list T).

(** The branch [diff > 0] reloads the cursor; with no other thread to move
    it the loop sees the same cell again, and again. *)
Lemma enqueue_loop_spins q c :
  m_ring q !! cell_index q (m_enqueue_pos q) = Some c ->
  0 < diff (m_pos c) (m_enqueue_pos q) ->
  forall fuel s, enqueue_loop fuel s q (m_enqueue_pos q) = Spinning.
Proof.
  intros Hc Hd. induction fuel as [|fuel IH]; intros s; [reflexivity|].
  cbn [enqueue_loop]. rewrite Hc.
  destruct (Z.eqb_spec (diff (m_pos c) (m_enqueue_pos q)) 0); [lia|].
  destruct (Z.ltb_spec (diff (m_pos c) (m_enqueue_pos q)) 0); [lia|].
  apply IH.
Qed.

Lemma dequeue_loop_spins q c :
  m_ring q !! cell_index q (m_dequeue_pos q) = Some c ->
  0 < diff (m_pos c) (wrap (m_dequeue_pos q + 1)) ->
  forall fuel s, dequeue_loop fuel s q (m_dequeue_pos q) = Spinning.
Proof.
  intros Hc Hd. induction fuel as [|fuel IH]; intros s; [reflexivity|].
  cbn [dequeue_loop]. rewrite Hc.
  destruct (Z.eqb_spec (diff (m_pos c) (wrap (m_dequeue_pos q + 1))) 0); [lia|].
  destruct (Z.ltb_spec (diff (m_pos c) (wrap (m_dequeue_pos q + 1))) 0); [lia|].
  apply IH.
Qed.

Lemma empty_loop_spins q c :
  m_ring q !! cell_index q (m_dequeue_pos q) = Some c ->
  0 < diff (m_pos c) (wrap (m_dequeue_pos q + 1)) ->
  forall fuel, empty_loop fuel q (m_dequeue_pos q) = Spinning.
Proof.
  intros Hc Hd. induction fuel as [|fuel IH]; [reflexivity|].
  cbn [empty_loop]. rewrite Hc.
  destruct (Z.eqb_spec (diff (m_pos c) (wrap (m_dequeue_pos q + 1))) 0); [lia|].
  destruct (Z.ltb_spec (diff (m_pos c) (wrap (m_dequeue_pos q + 1))) 0); [lia|].
  apply IH.
Qed.

(** X6.  Whatever the state of the queue, a call that takes the branch
    [diff > 0] while no other thread runs never returns: [enqueue],
    [dequeue] and [empty] are still in their loop after any number of
    iterations. *)
Theorem positive_diff_never_returns q c (data : T) :
  (m_ring q !! cell_index q (m_enqueue_pos q) = Some c ->
   0 < diff (m_pos c) (m_enqueue_pos q) ->
   forall fuel s, enqueue fuel s q data = Spinning)
  /\ (m_ring q !! cell_index q (m_dequeue_pos q) = Some c ->
      0 < diff (m_pos c) (wrap (m_dequeue_pos q + 1)) ->
      forall fuel s, dequeue fuel s q = Spinning /\ empty fuel q = Spinning).
Proof.
  split; intros Hc Hd fuel s.
  - unfold enqueue. now rewrite (enqueue_loop_spins q c Hc Hd).
  - unfold dequeue, empty.
    now rewrite (dequeue_loop_spins q c Hc Hd), (empty_loop_spins q c Hc Hd).
Qed.

(** X10.  Spurious failures of the weak exchange are invisible: whatever the
    state of the queue, a call that meets [s] of them does, given [s] more
    iterations, what the call that meets none does, to the queue and to its
    caller. *)
Theorem spurious_failures_are_invisible q (data : T) (fuel s : nat) :
  (s < fuel)%nat ->
  enqueue fuel s q data = enqueue (fuel - s) 0 q data
  /\ dequeue fuel s q = dequeue (fuel - s) 0 q.
Proof.
  intros Hfuel.
  assert (Hs : (s <? fuel)%nat = true) by (apply Nat.ltb_lt; lia).
  assert (H0 : (0 <? fuel - s)%nat = true) by (apply Nat.ltb_lt; lia).
  assert (Hf : (0 <? fuel)%nat = true) by (apply Nat.ltb_lt; lia).
  split.
  - unfold enqueue.
    destruct (m_ring q !! cell_index q (m_enqueue_pos q)) as [c|] eqn:Hc.
    + destruct (Z.lt_trichotomy (diff (m_pos c) (m_enqueue_pos q)) 0)
        as [Hd|[Hd|Hd]].
      * now rewrite !(enqueue_loop_full q c _ Hc Hd), Hf, H0.
      * now rewrite !(enqueue_loop_claim q c Hc Hd), Hs, H0.
      * now rewrite !(enqueue_loop_spins q c Hc Hd).
    + destruct fuel as [|fuel]; [lia|].
      destruct (S fuel - s)%nat as [|fuel'] eqn:Hsub; [lia|].
      cbn [enqueue_loop]. now rewrite Hc.
  - unfold dequeue.
    destruct (m_ring q !! cell_index q (m_dequeue_pos q)) as [c|] eqn:Hc.
    + destruct (Z.lt_trichotomy (diff (m_pos c) (wrap (m_dequeue_pos q + 1))) 0)
        as [Hd|[Hd|Hd]].
      * now rewrite !(dequeue_loop_empty q c _ Hc Hd), Hf, H0.
      * now rewrite !(dequeue_loop_claim q c Hc Hd), Hs, H0.
      * now rewrite !(dequeue_loop_spins q c Hc Hd).
    + destruct fuel as [|fuel]; [lia|].
      destruct (S fuel - s)%nat as [|fuel'] eqn:Hsub; [lia|].
      cbn [dequeue_loop]. now rewrite Hc.
Qed.

(** X7.  An [enqueue] that returns [true] has, whatever the state of the
    queue, moved [enqueue_pos] from its ticket [pos] to [pos + 1], written
    [data] into the cell of [pos] and set its sequence to [pos + 1]; the other
    cursor and the other cells are as before. *)
Theorem enqueue_writes_one_cell fuel s q q' (data : T) :
  enqueue fuel s q data = Ret (q', true) ->
  let pos := m_enqueue_pos q in
  let i := cell_index q pos in
  m_enqueue_pos q' = wrap (pos + 1)
  /\ m_dequeue_pos q' = m_dequeue_pos q
  /\ m_capacity q' = m_capacity q
  /\ length (m_ring q') = length (m_ring q)
  /\ m_ring q' !! i = Some (mkCell (wrap (pos + 1)) (Some data))
  /\ (forall j, j <> i -> m_ring q' !! j = m_ring q !! j).
Proof.
  intros Hcall pos i. subst pos i. unfold enqueue in Hcall.
  destruct (enqueue_loop fuel s q (m_enqueue_pos q)) as [[q1 claim]| |] eqn:Hloop;
    try discriminate.
  assert (Hcell : is_Some (m_ring q !! cell_index q (m_enqueue_pos q))).
  { destruct fuel as [|fuel]; [discriminate|]. cbn [enqueue_loop] in Hloop.
    destruct (m_ring q !! cell_index q (m_enqueue_pos q)); [eauto|discriminate]. }
  destruct Hcell as [c Hc].
  apply enqueue_loop_inv in Hloop.
  destruct claim as [pos|]; cbn [bind] in Hcall; [|discriminate].
  destruct Hloop as [-> ->]. injection Hcall as <-.
  cbn [set_ring set_enqueue_pos m_ring m_capacity m_enqueue_pos m_dequeue_pos].
  change (cell_index (set_enqueue_pos q _) ?p) with (cell_index q p).
  split; [reflexivity|]. split; [reflexivity|]. split; [reflexivity|].
  split; [now rewrite length_store_pos, length_store_data|]. split.
  - rewrite (lookup_store_pos_eq _ _ _ (mkCell (m_pos c) (Some data)));
      [reflexivity|now apply lookup_store_data_eq].
  - intros j Hj. now rewrite lookup_store_pos_ne, lookup_store_data_ne.
Qed.

End Protocol.

Section Reachable.

Context {T : Type}.
Implicit Types (q : mpmc_bq T) (c : Cell T) (l : list T).

(** No call on a queue that holds [l] steps outside the ring or reads a
    payload that was never written. *)
Lemma run_Rep_defined fuel ops : forall q D l,
  Rep q D l -> run fuel ops q <> Undefined.
Proof.
  induction ops as [|o ops IH]; intros q D l HR; [discriminate|].
  cbn [run].
  destruct (run_op_Rep q D l o HR) as (q1 & Hop & _ & HR1).
  rewrite Hop. destruct (retries _ o l <? fuel)%nat; [|discriminate].
  cbn [bind]. specialize (IH q1 _ _ HR1).
  destruct (run fuel ops q1) as [[q2 es]| |]; [discriminate|discriminate|].
  now contradiction IH.
Qed.

(** The tests of the loops on a queue that holds [l]. *)
Lemma Rep_diff q D l :
  Rep q D l ->
  exists ce cd,
    m_ring q !! cell_index q (m_enqueue_pos q) = Some ce
    /\ m_ring q !! cell_index q (m_dequeue_pos q) = Some cd
    /\ diff (m_pos ce) (m_enqueue_pos q)
       = (if Z.of_nat (length l) <? m_capacity q + 1
          then 0 else 1 - (m_capacity q + 1))
    /\ diff (m_pos cd) (wrap (m_dequeue_pos q + 1))
       = (if 0 <? Z.of_nat (length l) then 0 else -1).
Proof.
  intros HR.
  pose proof (Rep_capacity _ _ _ HR) as HN.
  pose proof (Rep_cell_index q D l (D + Z.of_nat (length l)) HR) as Hie.
  pose proof (Rep_cell_index q D l D HR) as Hid.
  destruct HR as [Hpow Hring HD Hdeq Henq Hbound Hpub Harm].
  rewrite <- Henq in Hie. rewrite <- Hdeq in Hid. rewrite Hie, Hid.
  assert (He : exists ce,
             m_ring q !! slot q (D + Z.of_nat (length l)) = Some ce
             /\ diff (m_pos ce) (m_enqueue_pos q)
                = (if Z.of_nat (length l) <? m_capacity q + 1
                   then 0 else 1 - (m_capacity q + 1))).
  { destruct (Z.ltb_spec (Z.of_nat (length l)) (m_capacity q + 1)) as [Hroom|Hfull].
    - destruct (Harm (Z.of_nat (length l)) ltac:(lia)) as (c & Hc & Hseq).
      exists c. split; [assumption|].
      rewrite Hseq, Henq, diff_wrap, Z.sub_diag. reflexivity.
    - destruct l as [|x l]; [simpl in Hfull; lia|].
      pose proof (Hpub 0%nat x eq_refl) as Hc. rewrite Z.add_0_r in Hc.
      assert (Hlen : Z.of_nat (length (x :: l)) = m_capacity q + 1) by lia.
      rewrite Henq, Hlen, slot_lap by lia.
      eexists. split; [exact Hc|]. cbn [m_pos].
      rewrite diff_wrap, to_intptr_wrap; lia. }
  assert (Hd : exists cd,
             m_ring q !! slot q D = Some cd
             /\ diff (m_pos cd) (wrap (m_dequeue_pos q + 1))
                = (if 0 <? Z.of_nat (length l) then 0 else -1)).
  { destruct l as [|x l].
    - destruct (Harm 0 ltac:(simpl; lia)) as (c & Hc & Hseq).
      rewrite Z.add_0_r in Hc, Hseq. exists c. split; [assumption|].
      rewrite Hseq, Hdeq, wrap_add_l, diff_wrap.
      replace (D - (D + 1)) with (-1) by lia. reflexivity.
    - pose proof (Hpub 0%nat x eq_refl) as Hc. rewrite Z.add_0_r in Hc.
      eexists. split; [exact Hc|]. cbn [m_pos].
      rewrite Hdeq, wrap_add_l, diff_wrap, Z.sub_diag. reflexivity. }
  destruct He as (ce & Hce & Hde), Hd as (cd & Hcd & Hdd). eauto 6.
Qed.

(** Every cell of a queue that holds [l] is armed for a ticket of its index
    or published for it. *)
Lemma Rep_cell q D l (i : nat) c :
  Rep q D l ->
  m_ring q !! i = Some c ->
  m_pos c mod (m_capacity q + 1) = Z.of_nat i
  \/ m_pos c mod (m_capacity q + 1) = (Z.of_nat i + 1) mod (m_capacity q + 1).
Proof.
  intros HR Hc.
  pose proof (Rep_capacity _ _ _ HR) as HN.
  pose proof (lookup_lt_Some _ _ _ Hc) as Hi.
  destruct HR as [(k & Hk & Hcap) Hring HD Hdeq Henq Hbound Hpub Harm].
  set (N := m_capacity q + 1) in *.
  assert (HNk : N = 2 ^ k) by (unfold N; lia).
  set (j := (Z.of_nat i - D) mod N).
  assert (Hj : 0 <= j < N) by (apply Z.mod_pos_bound; lia).
  assert (Hslot : slot q (D + j) = i).
  { unfold slot, j. fold N. rewrite Zplus_mod_idemp_r.
    replace (D + (Z.of_nat i - D)) with (Z.of_nat i) by lia.
    rewrite Z.mod_small by lia. lia. }
  assert (Hmod : (D + j) mod N = Z.of_nat i).
  { unfold slot in Hslot. fold N in Hslot.
    pose proof (Z.mod_pos_bound (D + j) N ltac:(lia)). lia. }
  destruct (Z_lt_le_dec j (Z.of_nat (length l))) as [Hheld|Hfree].
  - destruct (lookup_lt_is_Some_2 l (Z.to_nat j) ltac:(lia)) as [v Hv].
    pose proof (Hpub _ _ Hv) as Hcell.
    rewrite Z2Nat.id, Hslot, Hc in Hcell by lia.
    injection Hcell as ->. right. cbn [m_pos].
    rewrite HNk, mod_wrap_pow2 by lia. rewrite <- HNk.
    rewrite <- Zplus_mod_idemp_l, Hmod. reflexivity.
  - destruct (Harm j ltac:(fold N; lia)) as (c' & Hc' & Hseq).
    rewrite Hslot, Hc in Hc'. injection Hc' as <-. left.
    rewrite Hseq, HNk, mod_wrap_pow2 by lia. rewrite <- HNk. exact Hmod.
Qed.

(** X1.  [capacity()] of a queue constructed with [n] cells is [n], after
    any sequence of calls. *)
Theorem capacity_is_constant raw n (q0 q : mpmc_bq T) fuel ops es :
  0 <= n < size_max ->
  construct raw n = Some q0 ->
  run fuel ops q0 = Ret (q, es) ->
  capacity q = n.
Proof.
  intros Hn Hq0 Hrun.
  destruct (history_Rep raw n q0 q fuel ops es Hn Hq0 Hrun)
    as (pending & _ & _ & Hcap & HN).
  unfold capacity. rewrite Hcap, HN. now apply wrap_small.
Qed.

(** X2.  On a queue no other thread works on, [empty()] returns in its first
    iteration, and returns [true] exactly when every value enqueued has been
    dequeued. *)
Theorem empty_iff_all_dequeued raw n (q0 q : mpmc_bq T) fuel ops es fuel' :
  0 <= n < size_max ->
  construct raw n = Some q0 ->
  run fuel ops q0 = Ret (q, es) ->
  (0 < fuel')%nat ->
  empty fuel' q
  = Ret (length (enqueued es) =? length (dequeued es))%nat.
Proof.
  intros Hn Hq0 Hrun Hfuel.
  destruct (history_Rep raw n q0 q fuel ops es Hn Hq0 Hrun)
    as (pending & HR & Hfifo & _ & _).
  rewrite (empty_Rep q _ pending HR).
  destruct fuel'; [lia|]. cbn [Nat.ltb Nat.leb]. f_equal.
  rewrite Hfifo, length_app. destruct pending; cbn [length].
  - rewrite Nat.add_0_r. symmetry. apply Nat.eqb_refl.
  - symmetry. apply Nat.eqb_neq. lia.
Qed.

(** X3.  On a queue no other thread works on, [enqueue] returns [true]
    exactly when fewer than [n] values are held, and [dequeue] returns the
    value of the first enqueue not yet dequeued from, [false] when there is
    none. *)
Theorem full_and_empty_are_exact raw n (q0 q : mpmc_bq T) fuel ops es :
  0 <= n < size_max ->
  construct raw n = Some q0 ->
  run fuel ops q0 = Ret (q, es) ->
  (forall data s fuel',
      (s < fuel')%nat ->
      exists q',
        enqueue fuel' s q data
        = Ret (q', Z.of_nat (length (enqueued es))
                   - Z.of_nat (length (dequeued es)) <? n))
  /\ (forall s fuel',
         (s < fuel')%nat ->
         exists q',
           dequeue fuel' s q
           = Ret (q', enqueued es !! length (dequeued es))).
Proof.
  intros Hn Hq0 Hrun.
  destruct (history_Rep raw n q0 q fuel ops es Hn Hq0 Hrun)
    as (pending & HR & Hfifo & Hcap & HN).
  pose proof (rep_bound _ _ _ _ HR) as Hbound.
  rewrite Hfifo, length_app.
  replace (Z.of_nat (length (dequeued es) + length pending)
           - Z.of_nat (length (dequeued es)))
    with (Z.of_nat (length pending)) by lia.
  split.
  - intros data s fuel' Hfuel.
    assert (Hs : (s <? fuel')%nat = true) by (apply Nat.ltb_lt; lia).
    assert (H0 : (0 <? fuel')%nat = true) by (apply Nat.ltb_lt; lia).
    destruct (Z.ltb_spec (Z.of_nat (length pending)) n) as [Hroom|Hfull].
    + destruct (enqueue_room q _ pending data HR ltac:(lia)) as (q' & Hcall & _).
      exists q'. now rewrite Hcall, Hs.
    + exists q. now rewrite (enqueue_full q _ pending data HR ltac:(lia)), H0.
  - intros s fuel' Hfuel.
    assert (Hs : (s <? fuel')%nat = true) by (apply Nat.ltb_lt; lia).
    assert (H0 : (0 <? fuel')%nat = true) by (apply Nat.ltb_lt; lia).
    destruct pending as [|x pending].
    + exists q. rewrite (dequeue_none q _ HR), H0, app_nil_r.
      now rewrite lookup_ge_None_2 by lia.
    + destruct (dequeue_some q _ x pending HR) as (q' & Hcall & _).
      exists q'. now rewrite Hcall, Hs, list_lookup_middle.
Qed.

(** X4.  No sequence of calls on a constructed queue, however long and with
    however little fuel, indexes outside the ring or reads a payload no
    enqueue has written; nor does [empty]. *)
Theorem calls_stay_defined raw n (q0 q : mpmc_bq T) fuel ops es fuel' ops' :
  0 <= n < size_max ->
  construct raw n = Some q0 ->
  run fuel ops q0 = Ret (q, es) ->
  run fuel' ops' q <> Undefined /\ empty fuel' q <> Undefined.
Proof.
  intros Hn Hq0 Hrun.
  destruct (history_Rep raw n q0 q fuel ops es Hn Hq0 Hrun)
    as (pending & HR & _ & _ & _).
  split; [exact (run_Rep_defined fuel' ops' q _ _ HR)|].
  rewrite (empty_Rep q _ pending HR). now destruct (0 <? fuel')%nat.
Qed.

(** X5.  On a queue no other thread works on, the test of [enqueue] finds
    [diff = 0] or, when [n] values are held, [diff = 1 - n]; the test of
    [dequeue] and [empty] finds [diff = 0] or, when nothing is held,
    [diff = -1].  The branch [diff > 0] is not taken. *)
Theorem diff_is_never_positive raw n (q0 q : mpmc_bq T) fuel ops es :
  0 <= n < size_max ->
  construct raw n = Some q0 ->
  run fuel ops q0 = Ret (q, es) ->
  let held := Z.of_nat (length (enqueued es)) - Z.of_nat (length (dequeued es)) in
  exists ce cd,
    m_ring q !! cell_index q (m_enqueue_pos q) = Some ce
    /\ m_ring q !! cell_index q (m_dequeue_pos q) = Some cd
    /\ diff (m_pos ce) (m_enqueue_pos q) = (if held <? n then 0 else 1 - n)
    /\ diff (m_pos cd) (wrap (m_dequeue_pos q + 1)) = (if 0 <? held then 0 else -1)
    /\ diff (m_pos ce) (m_enqueue_pos q) <= 0
    /\ diff (m_pos cd) (wrap (m_dequeue_pos q + 1)) <= 0.
Proof.
  intros Hn Hq0 Hrun held.
  destruct (history_Rep raw n q0 q fuel ops es Hn Hq0 Hrun)
    as (pending & HR & Hfifo & Hcap & HN).
  assert (Hheld : held = Z.of_nat (length pending)).
  { unfold held. rewrite Hfifo, length_app. lia. }
  destruct (Rep_diff q _ pending HR) as (ce & cd & Hce & Hcd & Hde & Hdd).
  rewrite Hcap, HN, <- Hheld in Hde. rewrite <- Hheld in Hdd.
  exists ce, cd. rewrite Hde, Hdd.
  split; [assumption|]. split; [assumption|].
  split; [reflexivity|]. split; [reflexivity|].
  destruct (construct_capacity raw n q0 Hn Hq0) as [H2 _].
  split; [destruct (held <? n)|destruct (0 <? held)]; lia.
Qed.

(** X8.  The cursors count the calls that returned [true]: [enqueue_pos] is
    the number of successful enqueues and [dequeue_pos] the number of
    successful dequeues, both modulo [2^64]. *)
Theorem cursors_count_successes raw n (q0 q : mpmc_bq T) fuel ops es :
  0 <= n < size_max ->
  construct raw n = Some q0 ->
  run fuel ops q0 = Ret (q, es) ->
  m_enqueue_pos q = wrap (Z.of_nat (length (enqueued es)))
  /\ m_dequeue_pos q = wrap (Z.of_nat (length (dequeued es))).
Proof.
  intros Hn Hq0 Hrun.
  destruct (history_Rep raw n q0 q fuel ops es Hn Hq0 Hrun)
    as (pending & HR & Hfifo & _ & _).
  rewrite (rep_enqueue_pos _ _ _ _ HR), (rep_dequeue_pos _ _ _ _ HR).
  split; [|reflexivity]. f_equal. rewrite Hfifo, length_app. lia.
Qed.

(** X9.  In every state a constructed queue reaches between calls, the
    sequence of the cell at index [i] is, modulo the capacity, [i] (the cell
    is armed for a producer) or [i + 1] (it is published for a consumer). *)
Theorem cells_are_armed_or_published raw n (q0 q : mpmc_bq T) fuel ops es (i : nat) c :
  0 <= n < size_max ->
  construct raw n = Some q0 ->
  run fuel ops q0 = Ret (q, es) ->
  m_ring q !! i = Some c ->
  m_pos c mod n = Z.of_nat i \/ m_pos c mod n = (Z.of_nat i + 1) mod n.
Proof.
  intros Hn Hq0 Hrun Hc.
  destruct (history_Rep raw n q0 q fuel ops es Hn Hq0 Hrun)
    as (pending & HR & _ & Hcap & HN).
  rewrite <- HN, <- Hcap. exact (Rep_cell q _ pending i c HR Hc).
Qed.

(** X11.  The cell of a ticket is the ticket modulo the capacity, also for
    the tickets beyond [2^64]: [pos & m_capacity] on the word of ticket [t]
    is [t mod n], so a ticket and the ticket [n] later share their cell. *)
Theorem cell_of_ticket raw n (q0 q : mpmc_bq T) fuel ops es (t : Z) :
  0 <= n < size_max ->
  construct raw n = Some q0 ->
  run fuel ops q0 = Ret (q, es) ->
  Z.of_nat (cell_index q (wrap t)) = t mod n
  /\ cell_index q (wrap (t + n)) = cell_index q (wrap t).
Proof.
  intros Hn Hq0 Hrun.
  destruct (history_Rep raw n q0 q fuel ops es Hn Hq0 Hrun)
    as (pending & HR & _ & Hcap & HN).
  destruct (construct_capacity raw n q0 Hn Hq0) as [H2 _].
  rewrite !(Rep_cell_index q _ _ _ HR). unfold slot. rewrite Hcap, HN.
  pose proof (Z.mod_pos_bound t n ltac:(lia)). split; [lia|].
  f_equal. rewrite <- (Z.mul_1_l n) at 1. apply Z.mod_add. lia.
Qed.

End Reachable.

(** ** The signed test of the loops *)

Section SignedTest.

Context {T : Type}.
Implicit Types (q : mpmc_bq T) (c : Cell T) (l : list T).

(** A history in two parts. *)
Lemma run_app fuel (ops1 ops2 : list (op T)) : forall q,
  run fuel (ops1 ++ ops2) q
  = (let* (q1, es1) := run fuel ops1 q in
     let* (q2, es2) := run fuel ops2 q1 in
     Ret (q2, es1 ++ es2)).
Proof.
  induction ops1 as [|o ops1 IH]; intros q.
  - cbn [app run bind]. now destruct (run fuel ops2 q) as [[q2 es2]| |].
  - cbn [app run]. destruct (run_op fuel o q) as [[q1 e]| |]; [|reflexivity..].
    cbn [bind]. rewrite IH.
    destruct (run fuel ops1 q1) as [[q2 es1]| |]; [|reflexivity..].
    cbn [bind]. now destruct (run fuel ops2 q2) as [[q3 es2]| |].
Qed.

(** [enqueue] goes where the sign of [diff] at its cell sends it. *)
Lemma enqueue_follows_diff q c (data : T) :
  m_ring q !! cell_index q (m_enqueue_pos q) = Some c ->
  match signed_compare (m_pos c) (m_enqueue_pos q) with
  | Lt => forall fuel s, (0 < fuel)%nat -> enqueue fuel s q data = Ret (q, false)
  | Eq => forall fuel s, (s < fuel)%nat ->
                         exists q', enqueue fuel s q data = Ret (q', true)
  | Gt => forall fuel s, enqueue fuel s q data = Spinning
  end.
Proof.
  intros Hc. unfold signed_compare.
  destruct (Z.compare_spec (diff (m_pos c) (m_enqueue_pos q)) 0) as [Hd|Hd|Hd];
    intros fuel s; unfold enqueue.
  - intros Hfuel. rewrite (enqueue_loop_claim q c Hc Hd).
    destruct (Nat.ltb_spec s fuel); [|lia]. cbn [bind]. eauto.
  - intros Hfuel. rewrite (enqueue_loop_full q c _ Hc Hd).
    destruct (Nat.ltb_spec 0 fuel); [reflexivity|lia].
  - now rewrite (enqueue_loop_spins q c Hc Hd).
Qed.

(** So do [dequeue] and [empty]. *)
Lemma dequeue_follows_diff q c :
  m_ring q !! cell_index q (m_dequeue_pos q) = Some c ->
  match signed_compare (m_pos c) (wrap (m_dequeue_pos q + 1)) with
  | Lt => forall fuel s, (0 < fuel)%nat ->
                         dequeue fuel s q = Ret (q, None)
                         /\ empty fuel q = Ret true
  | Eq => forall fuel s, (s < fuel)%nat ->
                         empty fuel q = Ret false
                         /\ forall data, m_data c = Some data ->
                                         exists q', dequeue fuel s q = Ret (q', Some data)
  | Gt => forall fuel s, dequeue fuel s q = Spinning /\ empty fuel q = Spinning
  end.
Proof.
  intros Hc. unfold signed_compare.
  destruct (Z.compare_spec (diff (m_pos c) (wrap (m_dequeue_pos q + 1))) 0)
    as [Hd|Hd|Hd]; intros fuel s.
  - intros Hfuel. split.
    + destruct fuel as [|fuel]; [lia|]. unfold empty. cbn [empty_loop].
      now rewrite Hc, Hd.
    + intros data Hdata. unfold dequeue.
      rewrite (dequeue_loop_claim q c Hc Hd).
      destruct (Nat.ltb_spec s fuel); [|lia]. cbn [bind].
      change (cell_index (set_dequeue_pos q _) ?p) with (cell_index q p).
      change (m_ring (set_dequeue_pos q _)) with (m_ring q).
      rewrite Hc, Hdata. eauto.
  - intros Hfuel. split.
    + unfold dequeue. rewrite (dequeue_loop_empty q c _ Hc Hd).
      destruct (Nat.ltb_spec 0 fuel); [reflexivity|lia].
    + destruct fuel as [|fuel]; [lia|]. unfold empty. cbn [empty_loop].
      rewrite Hc.
      destruct (Z.eqb_spec (diff (m_pos c) (wrap (m_dequeue_pos q + 1))) 0); [lia|].
      destruct (Z.ltb_spec (diff (m_pos c) (wrap (m_dequeue_pos q + 1))) 0);
        [reflexivity|lia].
  - unfold dequeue, empty.
    now rewrite (dequeue_loop_spins q c Hc Hd), (empty_loop_spins q c Hc Hd).
Qed.

(** A queue of capacity 2, empty, with [dequeue_pos] the last word: the
    sequence at the cursor is the greater word, and the signed test says
    empty. *)
Lemma empty_across_the_wrap (raw : nat -> Z) (data : T) (q0 : mpmc_bq T) :
  construct raw 2 = Some q0 ->
  exists fuel ops q es c,
    run fuel ops q0 = Ret (q, es)
    /\ m_dequeue_pos q = size_max - 1
    /\ m_ring q !! cell_index q (m_dequeue_pos q) = Some c
    /\ signed_compare (m_pos c) (wrap (m_dequeue_pos q + 1)) = Lt
    /\ unsigned_compare (m_pos c) (wrap (m_dequeue_pos q + 1)) = Gt
    /\ dequeue 1 0 q = Ret (q, None)
    /\ empty 1 q = Ret true.
Proof.
  intros Hq0.
  assert (Hn : 0 <= 2 < size_max) by (unfold size_max; lia).
  pose proof (construct_Rep raw 2 q0 Hn Hq0) as HR0.
  destruct (round_trips_Rep data (Z.to_nat (size_max - 1)) q0 0 HR0)
    as (q & es & Hrun & HR & Hcap).
  rewrite Z2Nat.id, Z.add_0_l in HR by (unfold size_max; lia).
  destruct (rep_armed _ _ _ _ HR 0) as (c & Hc & Hseq).
  { pose proof (Rep_capacity _ _ _ HR). simpl. lia. }
  rewrite Z.add_0_r in Hc, Hseq.
  pose proof (rep_dequeue_pos _ _ _ _ HR) as Hdeq.
  assert (Hword : wrap (size_max - 1) = size_max - 1).
  { apply wrap_small. unfold size_max. lia. }
  rewrite Hword in Hdeq, Hseq.
  exists 1%nat, (round_trips data (Z.to_nat (size_max - 1))), q, es, c.
  split; [assumption|]. split; [assumption|].
  rewrite Hdeq, Hseq, <- Hword, (Rep_cell_index q _ _ _ HR).
  split; [assumption|]. rewrite Hword.
  split; [reflexivity|]. split; [reflexivity|].
  split; [apply (dequeue_none q _ HR)|apply (empty_Rep q _ _ HR)].
Qed.

(** The same queue, full, with [enqueue_pos] wrapped to 0 and [dequeue_pos]
    two words before: the sequence at the cursor of [enqueue] is the greater
    word, and the signed test says full. *)
Lemma full_across_the_wrap (raw : nat -> Z) (data : T) (q0 : mpmc_bq T) :
  construct raw 2 = Some q0 ->
  exists fuel ops q es c,
    run fuel ops q0 = Ret (q, es)
    /\ m_dequeue_pos q = size_max - 2
    /\ m_enqueue_pos q = 0
    /\ m_ring q !! cell_index q (m_enqueue_pos q) = Some c
    /\ signed_compare (m_pos c) (m_enqueue_pos q) = Lt
    /\ unsigned_compare (m_pos c) (m_enqueue_pos q) = Gt
    /\ enqueue 1 0 q data = Ret (q, false)
    /\ empty 1 q = Ret false
    /\ exists q', dequeue 1 0 q = Ret (q', Some data).
Proof.
  intros Hq0.
  assert (Hn : 0 <= 2 < size_max) by (unfold size_max; lia).
  pose proof (construct_Rep raw 2 q0 Hn Hq0) as HR0.
  destruct (construct_capacity raw 2 q0 Hn Hq0) as [_ Hcap0].
  destruct (round_trips_Rep data (Z.to_nat (size_max - 2)) q0 0 HR0)
    as (q1 & es1 & Hrun1 & HR1 & Hcap1).
  rewrite Z2Nat.id, Z.add_0_l in HR1 by (unfold size_max; lia).
  destruct (enqueue_room q1 _ [] data HR1) as (q2 & Henq1 & Hcap2 & HR2).
  { cbn [length]. lia. }
  destruct (enqueue_room q2 _ [data] data HR2) as (q & Henq2 & Hcap & HR).
  { cbn [length]. lia. }
  cbn [app] in HR2, HR.
  assert (HN : m_capacity q + 1 = 2) by lia.
  pose proof (rep_published _ _ _ _ HR 0%nat data eq_refl) as Hc.
  rewrite Z.add_0_r in Hc.
  pose proof (rep_dequeue_pos _ _ _ _ HR) as Hdeq.
  pose proof (rep_enqueue_pos _ _ _ _ HR) as Hpos.
  pose proof (Rep_cell_index q _ _ (size_max - 2 + Z.of_nat 2) HR) as Hidx.
  cbn [length] in Hpos. rewrite <- Hpos in Hidx.
  replace (size_max - 2 + Z.of_nat 2)
    with (size_max - 2 + (m_capacity q + 1)) in Hidx by lia.
  rewrite slot_lap in Hidx by lia.
  assert (Hd : wrap (size_max - 2) = size_max - 2).
  { apply wrap_small. unfold size_max. lia. }
  assert (He : wrap (size_max - 2 + Z.of_nat 2) = 0) by reflexivity.
  assert (Hs : wrap (size_max - 2 + 1) = size_max - 1).
  { apply wrap_small. unfold size_max. lia. }
  rewrite Hd in Hdeq. rewrite He in Hpos. rewrite Hs in Hc.
  exists 1%nat,
         (round_trips data (Z.to_nat (size_max - 2))
          ++ [Enqueue data 0; Enqueue data 0]),
         q, (es1 ++ [EvEnqueue data true; EvEnqueue data true]),
         (mkCell (size_max - 1) (Some data)).
  split.
  { rewrite run_app, Hrun1. cbn [bind run run_op].
    rewrite Henq1. cbn [Nat.ltb Nat.leb bind].
    rewrite Henq2. cbn [Nat.ltb Nat.leb bind]. reflexivity. }
  split; [assumption|]. split; [assumption|].
  rewrite Hidx. split; [assumption|]. rewrite Hpos. cbn [m_pos].
  split; [reflexivity|]. split; [reflexivity|].
  split; [apply (enqueue_full q _ _ data HR); cbn [length]; lia|].
  split; [apply (empty_Rep q _ _ HR)|].
  destruct (dequeue_some q _ data [data] HR) as (q' & Hcall & _).
  exists q'. apply Hcall.
Qed.

(** C8.  The tests of [enqueue], [dequeue] and [empty] branch on [diff], the
    two's-complement reading of the difference of the two words.  (1, 2) When
    the sequence is [d] tickets from the position, [diff] is [d] whatever
    wrapped at the word width in between.  (3, 4) In any state each of the
    three calls goes where the sign of [diff] at its cell sends it: full or
    empty on [diff < 0], the claim of the ticket on [diff = 0], the reload on
    [diff > 0].  (5) So after any history of a constructed queue, however
    long, [enqueue] returns [true] exactly when fewer than [n] values are
    held, [dequeue] exactly when one is held, and [empty] exactly when none
    is.  (6, 7) The unsigned order of the two words is another test: a queue
    of capacity 2 reaches a state with [dequeue_pos = 2^64 - 1] in which it is
    empty, and a state with [enqueue_pos] wrapped to 0 in which it is full;
    in both the calls answer right on [diff < 0] while the sequence is the
    greater word. *)
Theorem signed_diff_tolerates_wrap :
  (forall seq pos,
      0 <= seq < size_max -> 0 <= pos < size_max ->
      diff seq pos = to_intptr (wrap (seq - pos)))
  /\ (forall t d,
         - intptr_max <= d < intptr_max ->
         diff (wrap (t + d)) (wrap t) = d
         /\ signed_compare (wrap (t + d)) (wrap t) = (d ?= 0))
  /\ (forall (q : mpmc_bq T) c (data : T),
         m_ring q !! cell_index q (m_enqueue_pos q) = Some c ->
         match signed_compare (m_pos c) (m_enqueue_pos q) with
         | Lt => forall fuel s, (0 < fuel)%nat ->
                                enqueue fuel s q data = Ret (q, false)
         | Eq => forall fuel s, (s < fuel)%nat ->
                                exists q', enqueue fuel s q data = Ret (q', true)
         | Gt => forall fuel s, enqueue fuel s q data = Spinning
         end)
  /\ (forall (q : mpmc_bq T) c,
         m_ring q !! cell_index q (m_dequeue_pos q) = Some c ->
         match signed_compare (m_pos c) (wrap (m_dequeue_pos q + 1)) with
         | Lt => forall fuel s, (0 < fuel)%nat ->
                                dequeue fuel s q = Ret (q, None)
                                /\ empty fuel q = Ret true
         | Eq => forall fuel s, (s < fuel)%nat ->
                                empty fuel q = Ret false
                                /\ forall data,
                                    m_data c = Some data ->
                                    exists q', dequeue fuel s q = Ret (q', Some data)
         | Gt => forall fuel s, dequeue fuel s q = Spinning
                                /\ empty fuel q = Spinning
         end)
  /\ (forall raw n (q0 q : mpmc_bq T) fuel ops es (data : T) (s fuel' : nat),
         0 <= n < size_max ->
         construct raw n = Some q0 ->
         run fuel ops q0 = Ret (q, es) ->
         (s < fuel')%nat ->
         let held := Z.of_nat (length (enqueued es))
                     - Z.of_nat (length (dequeued es)) in
         (exists q', enqueue fuel' s q data = Ret (q', held <? n))
         /\ (exists q' out, dequeue fuel' s q = Ret (q', out)
                            /\ (0 <? held) = bool_decide (is_Some out))
         /\ empty fuel' q = Ret (held =? 0))
  /\ (forall (raw : nat -> Z) (data : T) (q0 : mpmc_bq T),
         construct raw 2 = Some q0 ->
         exists fuel ops q es c,
           run fuel ops q0 = Ret (q, es)
           /\ m_dequeue_pos q = size_max - 1
           /\ m_ring q !! cell_index q (m_dequeue_pos q) = Some c
           /\ signed_compare (m_pos c) (wrap (m_dequeue_pos q + 1)) = Lt
           /\ unsigned_compare (m_pos c) (wrap (m_dequeue_pos q + 1)) = Gt
           /\ dequeue 1 0 q = Ret (q, None)
           /\ empty 1 q = Ret true)
  /\ (forall (raw : nat -> Z) (data : T) (q0 : mpmc_bq T),
         construct raw 2 = Some q0 ->
         exists fuel ops q es c,
           run fuel ops q0 = Ret (q, es)
           /\ m_dequeue_pos q = size_max - 2
           /\ m_enqueue_pos q = 0
           /\ m_ring q !! cell_index q (m_enqueue_pos q) = Some c
           /\ signed_compare (m_pos c) (m_enqueue_pos q) = Lt
           /\ unsigned_compare (m_pos c) (m_enqueue_pos q) = Gt
           /\ enqueue 1 0 q data = Ret (q, false)
           /\ empty 1 q = Ret false
           /\ exists q', dequeue 1 0 q = Ret (q', Some data)).
Proof.
  split; [exact diff_words|]. split.
  { intros t d Hd. unfold signed_compare. now rewrite (diff_distance t d Hd). }
  split; [exact enqueue_follows_diff|]. split; [exact dequeue_follows_diff|].
  split; [|split; [exact empty_across_the_wrap|exact full_across_the_wrap]].
  intros raw n q0 q fuel ops es data s fuel' Hn Hq0 Hrun Hfuel held.
  destruct (history_Rep raw n q0 q fuel ops es Hn Hq0 Hrun)
    as (pending & HR & Hfifo & Hcap & HN).
  pose proof (rep_bound _ _ _ _ HR) as Hbound.
  assert (Hheld : held = Z.of_nat (length pending)).
  { unfold held. rewrite Hfifo, length_app. lia. }
  rewrite Hheld.
  assert (Hs : (s <? fuel')%nat = true) by (apply Nat.ltb_lt; lia).
  assert (H0 : (0 <? fuel')%nat = true) by (apply Nat.ltb_lt; lia).
  split; [|split].
  - destruct (Z.ltb_spec (Z.of_nat (length pending)) n) as [Hroom|Hfull].
    + destruct (enqueue_room q _ pending data HR ltac:(lia)) as (q' & Hcall & _).
      exists q'. now rewrite Hcall, Hs.
    + exists q. now rewrite (enqueue_full q _ pending data HR ltac:(lia)), H0.
  - destruct pending as [|x pending].
    + exists q, None. rewrite (dequeue_none q _ HR), H0. split; [reflexivity|].
      cbn [length]. symmetry. apply bool_decide_eq_false. now intros [? [=]].
    + destruct (dequeue_some q _ x pending HR) as (q' & Hcall & _).
      exists q', (Some x). rewrite Hcall, Hs. split; [reflexivity|].
      cbn [length]. symmetry.
      destruct (Z.ltb_spec 0 (Z.of_nat (S (length pending)))); [|lia].
      apply bool_decide_eq_true. eauto.
  - rewrite (empty_Rep q _ pending HR), H0. f_equal.
    destruct pending; cbn [length]; [reflexivity|].
    symmetry. apply Z.eqb_neq. lia.
Qed.

End SignedTest.

Lemma signed_diff_tolerates_wrap_witness :
  let full := mkQueue [mkCell (size_max - 1) (Some 5); mkCell 0 (Some 6)]
                      1 0 (size_max - 2) in
  let last := mkQueue [mkCell 0 (Some 5); mkCell (size_max - 1) (Some 6)]
                      1 (size_max - 1) (size_max - 1) in
  diff 3 (size_max - 2) = to_intptr (wrap (3 - (size_max - 2)))
  /\ diff (wrap (size_max - 1 + 1)) (wrap (size_max - 1)) = 1
  /\ enqueue 1 0 full 7 = Ret (full, false)
  /\ (exists q', dequeue 4 3 full = Ret (q', Some 5))
  /\ empty 4 full = Ret false
  /\ dequeue 1 0 last = Ret (last, None)
  /\ empty 1 last = Ret true
  /\ (exists (q0 q : mpmc_bq Z) es q1,
         construct (fun _ => 0) 2 = Some q0
         /\ run 1 [Enqueue 5 0; Enqueue 6 0] q0 = Ret (q, es)
         /\ enqueue 4 3 q 7 = Ret (q1, false)
         /\ empty 4 q = Ret false)
  /\ (exists (q0 : mpmc_bq Z) fuel ops q es c,
         construct (fun _ => 0) 2 = Some q0
         /\ run fuel ops q0 = Ret (q, es)
         /\ m_dequeue_pos q = size_max - 1
         /\ m_ring q !! cell_index q (m_dequeue_pos q) = Some c
         /\ signed_compare (m_pos c) (wrap (m_dequeue_pos q + 1)) = Lt
         /\ unsigned_compare (m_pos c) (wrap (m_dequeue_pos q + 1)) = Gt)
  /\ (exists (q0 : mpmc_bq Z) fuel ops q es c,
         construct (fun _ => 0) 2 = Some q0
         /\ run fuel ops q0 = Ret (q, es)
         /\ m_enqueue_pos q = 0
         /\ m_ring q !! cell_index q (m_enqueue_pos q) = Some c
         /\ signed_compare (m_pos c) (m_enqueue_pos q) = Lt
         /\ unsigned_compare (m_pos c) (m_enqueue_pos q) = Gt
         /\ enqueue 1 0 q 7 = Ret (q, false)).
Proof.
  intros full last.
  pose proof (signed_diff_tolerates_wrap (T:=Z))
    as (Hdiff & Hdist & Henq & Hdeq & Hhist & Hempty & Hfull).
  split; [apply Hdiff; in_range|].
  split; [apply (Hdist (size_max - 1) 1); in_range|].
  split.
  { apply (Henq full (mkCell (size_max - 1) (Some 5)) 7 eq_refl 1%nat 0%nat). lia. }
  pose proof (Hdeq full (mkCell (size_max - 1) (Some 5)) eq_refl 4%nat 3%nat
                ltac:(lia)) as [Hef Hdf].
  split; [exact (Hdf 5 eq_refl)|]. split; [exact Hef|].
  pose proof (Hdeq last (mkCell (size_max - 1) (Some 6)) eq_refl 1%nat 0%nat
                ltac:(lia)) as [Hdl Hel].
  split; [exact Hdl|]. split; [exact Hel|].
  split.
  { destruct (Hhist (fun _ => 0) 2 _ _ 1%nat [Enqueue 5 0; Enqueue 6 0] _
                    7 3%nat 4%nat ltac:(in_range) eq_refl eq_refl ltac:(lia))
      as ((q1 & H1) & _ & H3).
    eexists _, _, _, q1. split; [reflexivity|]. split; [reflexivity|].
    split; [exact H1|exact H3]. }
  split.
  { destruct (Hempty (fun _ => 0) 5 _ eq_refl)
      as (fuel & ops & q & es & c & Hrun & Hpos & Hc & Hs & Hu & _).
    eexists _, fuel, ops, q, es, c. split; [reflexivity|]. auto. }
  destruct (Hfull (fun _ => 0) 7 _ eq_refl)
    as (fuel & ops & q & es & c & Hrun & _ & Hpos & Hc & Hs & Hu & He & _).
  eexists _, fuel, ops, q, es, c. split; [reflexivity|]. auto 8.
Defined.


(** *** At a queue of capacity 2 *)

Lemma positive_diff_never_returns_witness :
  let q := mkQueue [mkCell 5 (@None Z); mkCell 1 None] 1 0 0 in
  enqueue 9 0 q 7 = Spinning
  /\ dequeue 9 0 q = Spinning
  /\ empty 9 q = Spinning.
Proof.
  intros q.
  destruct (positive_diff_never_returns q (mkCell 5 None) 7) as [Henq Hdeq].
  split; [apply Henq; reflexivity|].
  apply (Hdeq eq_refl eq_refl 9%nat 0%nat).
Defined.

Lemma spurious_failures_are_invisible_witness :
  let q := mkQueue [mkCell 1 (Some 5); mkCell 1 None] 1 1 0 in
  (3 < 5)%nat
  /\ enqueue 5 3 q 7 = enqueue (5 - 3) 0 q 7
  /\ dequeue 5 3 q = dequeue (5 - 3) 0 q.
Proof.
  intros q. split; [lia|].
  apply (spurious_failures_are_invisible q 7 5 3). lia.
Defined.

Lemma enqueue_writes_one_cell_witness :
  let q := mkQueue [mkCell 1 (Some 5); mkCell 1 None] 1 1 0 in
  let q' := mkQueue [mkCell 1 (Some 5); mkCell 2 (Some 7)] 1 2 0 in
  enqueue 1 0 q 7 = Ret (q', true)
  /\ m_enqueue_pos q' = wrap (m_enqueue_pos q + 1)
  /\ m_ring q' !! 1%nat = Some (mkCell 2 (Some 7))
  /\ m_ring q' !! 0%nat = m_ring q !! 0%nat.
Proof.
  intros q q'.
  destruct (enqueue_writes_one_cell 1 0 q q' 7 eq_refl)
    as (Hpos & _ & _ & _ & Hcell & Hrest).
  split; [reflexivity|]. split; [exact Hpos|]. split; [exact Hcell|].
  apply Hrest. discriminate.
Defined.

Lemma capacity_is_constant_witness :
  exists (q0 q : mpmc_bq Z) es,
    construct (fun _ => 0) 2 = Some q0
    /\ run 1 [Enqueue 5 0; Dequeue 0; Enqueue 6 0] q0 = Ret (q, es)
    /\ capacity q = 2.
Proof.
  eexists _, _, _. split; [reflexivity|]. split; [reflexivity|].
  eapply (capacity_is_constant (fun _ => 0) 2 _ _ 1
            [Enqueue 5 0; Dequeue 0; Enqueue 6 0]);
    [in_range | reflexivity | reflexivity].
Defined.

Lemma empty_iff_all_dequeued_witness :
  exists (q0 q : mpmc_bq Z) es,
    construct (fun _ => 0) 2 = Some q0
    /\ run 1 [Enqueue 5 0; Dequeue 0; Enqueue 6 0] q0 = Ret (q, es)
    /\ empty 1 q = Ret (length (enqueued es) =? length (dequeued es))%nat.
Proof.
  eexists _, _, _. split; [reflexivity|]. split; [reflexivity|].
  eapply (empty_iff_all_dequeued (fun _ => 0) 2 _ _ 1
            [Enqueue 5 0; Dequeue 0; Enqueue 6 0]);
    [in_range | reflexivity | reflexivity | lia].
Defined.

Lemma full_and_empty_are_exact_witness :
  exists (q0 q : mpmc_bq Z) es q1 q2,
    construct (fun _ => 0) 2 = Some q0
    /\ run 1 [Enqueue 5 0; Dequeue 0; Enqueue 6 0; Enqueue 7 0] q0 = Ret (q, es)
    /\ enqueue 4 3 q 8 = Ret (q1, false)
    /\ dequeue 4 3 q = Ret (q2, Some 6).
Proof.
  destruct (full_and_empty_are_exact (T:=Z) (fun _ => 0) 2 _ _ 1
              [Enqueue 5 0; Dequeue 0; Enqueue 6 0; Enqueue 7 0] _
              ltac:(in_range) eq_refl eq_refl) as [Henq Hdeq].
  destruct (Henq 8 3%nat 4%nat ltac:(lia)) as [q1 H1].
  destruct (Hdeq 3%nat 4%nat ltac:(lia)) as [q2 H2].
  eexists _, _, _, q1, q2.
  split; [reflexivity|]. split; [reflexivity|]. split; [exact H1|exact H2].
Defined.

Lemma calls_stay_defined_witness :
  exists (q0 q : mpmc_bq Z) es,
    construct (fun _ => 0) 2 = Some q0
    /\ run 1 [Enqueue 5 0; Dequeue 0] q0 = Ret (q, es)
    /\ run 0 [Dequeue 0; Dequeue 4; Enqueue 6 1] q <> Undefined
    /\ empty 0 q <> Undefined.
Proof.
  eexists _, _, _. split; [reflexivity|]. split; [reflexivity|].
  eapply (calls_stay_defined (fun _ => 0) 2 _ _ 1 [Enqueue 5 0; Dequeue 0]);
    [in_range | reflexivity | reflexivity].
Defined.

Lemma diff_is_never_positive_witness :
  exists (q0 q : mpmc_bq Z) es ce cd,
    construct (fun _ => 0) 2 = Some q0
    /\ run 1 [Enqueue 5 0; Enqueue 6 0] q0 = Ret (q, es)
    /\ m_ring q !! cell_index q (m_enqueue_pos q) = Some ce
    /\ m_ring q !! cell_index q (m_dequeue_pos q) = Some cd
    /\ diff (m_pos ce) (m_enqueue_pos q) = 1 - 2
    /\ diff (m_pos cd) (wrap (m_dequeue_pos q + 1)) = 0.
Proof.
  destruct (diff_is_never_positive (T:=Z) (fun _ => 0) 2 _ _ 1
              [Enqueue 5 0; Enqueue 6 0] _ ltac:(in_range) eq_refl eq_refl)
    as (ce & cd & Hce & Hcd & Hde & Hdd & _).
  eexists _, _, _, ce, cd.
  split; [reflexivity|]. split; [reflexivity|].
  split; [exact Hce|]. split; [exact Hcd|]. split; [exact Hde|exact Hdd].
Defined.

Lemma cursors_count_successes_witness :
  exists (q0 q : mpmc_bq Z) es,
    construct (fun _ => 0) 2 = Some q0
    /\ run 1 [Enqueue 5 0; Enqueue 6 0; Enqueue 7 0; Dequeue 0] q0 = Ret (q, es)
    /\ m_enqueue_pos q = wrap (Z.of_nat (length (enqueued es)))
    /\ m_dequeue_pos q = wrap (Z.of_nat (length (dequeued es))).
Proof.
  eexists _, _, _. split; [reflexivity|]. split; [reflexivity|].
  eapply (cursors_count_successes (fun _ => 0) 2 _ _ 1
            [Enqueue 5 0; Enqueue 6 0; Enqueue 7 0; Dequeue 0]);
    [in_range | reflexivity | reflexivity].
Defined.

Lemma cells_are_armed_or_published_witness :
  exists (q0 q : mpmc_bq Z) es,
    construct (fun _ => 0) 2 = Some q0
    /\ run 1 [Enqueue 5 0; Dequeue 0; Enqueue 6 0] q0 = Ret (q, es)
    /\ m_ring q !! 1%nat = Some (mkCell 2 (Some 6))
    /\ (2 mod 2 = Z.of_nat 1 \/ 2 mod 2 = (Z.of_nat 1 + 1) mod 2).
Proof.
  eexists _, _, _. split; [reflexivity|]. split; [reflexivity|].
  split; [reflexivity|].
  eapply (cells_are_armed_or_published (fun _ => 0) 2 _ _ 1
            [Enqueue 5 0; Dequeue 0; Enqueue 6 0] _ 1 (mkCell 2 (Some 6)));
    [in_range | reflexivity | reflexivity | reflexivity].
Defined.

Lemma cell_of_ticket_witness :
  exists (q0 q : mpmc_bq Z) es,
    construct (fun _ => 0) 4 = Some q0
    /\ run 1 [Enqueue 5 0] q0 = Ret (q, es)
    /\ Z.of_nat (cell_index q (wrap (size_max + 6))) = (size_max + 6) mod 4
    /\ cell_index q (wrap (size_max + 6 + 4)) = cell_index q (wrap (size_max + 6)).
Proof.
  eexists _, _, _. split; [reflexivity|]. split; [reflexivity|].
  eapply (cell_of_ticket (fun _ => 0) 4 _ _ 1 [Enqueue 5 0]);
    [in_range | reflexivity | reflexivity].
Defined.


(** ** The addresses of a metadata row *)

Lemma substring_all str : String.substring 0 (String.length str) str = str.
Proof. induction str as [|a str IH]; cbn; [reflexivity|now rewrite IH]. Qed.

(** In [h ++ c :: text], with no [c] in [h], [find] stops after [h], the
    prefix up to there is [h] and the rest from there on is [text]. *)
Lemma string_find_append c h text :
  string_find c h = None ->
  let str := String.append h (String.String c text) in
  string_find c str = Some (String.length h)
  /\ substr str 0 (String.length h) = h
  /\ substr_from str (String.length h + 1) = text.
Proof.
  unfold substr, substr_from. induction h as [|a h IH]; intros Hh.
  - cbn [String.append string_find String.length]. rewrite Ascii.eqb_refl.
    split; [reflexivity|]. split; [reflexivity|].
    cbn [Nat.add String.substring Nat.sub]. rewrite Nat.sub_0_r.
    apply substring_all.
  - cbn [string_find] in Hh.
    destruct (Ascii.eqb a c) eqn:Hac; [discriminate|].
    destruct (string_find c h) eqn:Hfind; [discriminate|].
    destruct (IH eq_refl) as (Hf & Hp & Hr).
    cbn [String.append string_find String.length]. rewrite Hac, Hf.
    split; [reflexivity|]. cbn [Nat.add String.substring Nat.sub].
    rewrite Hp. split; [reflexivity|]. exact Hr.
Qed.

(** Conversely, where [find] stops the string splits. *)
Lemma string_find_split c str : forall p,
  string_find c str = Some p ->
  str = String.append (substr str 0 p) (String.String c (substr_from str (p + 1)))
  /\ string_find c (substr str 0 p) = None.
Proof.
  unfold substr, substr_from. induction str as [|a str IH]; intros p Hp.
  - discriminate.
  - cbn [string_find] in Hp. destruct (Ascii.eqb_spec a c) as [->|Hac].
    + injection Hp as <-.
      cbn [Nat.add String.substring String.length Nat.sub String.append string_find].
      rewrite Nat.sub_0_r, substring_all. split; reflexivity.
    + destruct (string_find c str) as [p'|] eqn:Hfind; [|discriminate].
      injection Hp as <-. destruct (IH p' eq_refl) as [Hsplit Hnone].
      cbn [Nat.add String.substring String.length Nat.sub String.append string_find].
      rewrite <- Hsplit, Hnone.
      destruct (Ascii.eqb_spec a c); [contradiction|]. split; reflexivity.
Qed.

Lemma to_uint16_range z : 0 <= to_uint16 z < 65536.
Proof. unfold to_uint16. change (2 ^ 16) with 65536. euclid. Qed.

Section AddressesOfARow.

Variable strtoi_checked : String.string -> option Z.

Implicit Types (instance : ManagedInstance) (row : list (option String.string)).

(** X12.  An address without a colon, and a null address as well, is no
    error: with no address for the X protocol, the instance gets the address
    as its host, port 3306 and X port 33060, and the call returns [true]. *)
Theorem address_without_port_gets_defaults instance row c x classic xfield :
  row !! c = Some classic ->
  row !! x = Some xfield ->
  string_find ":"%char (get_string classic) = None ->
  non_empty xfield = false ->
  set_instance_ports strtoi_checked instance row c x
  = Ret (mkInstance (mysql_server_uuid instance) (get_string classic) 3306 33060,
         true).
Proof.
  intros Hc Hx Hfind Hempty. unfold set_instance_ports, classic_address.
  rewrite Hc, Hfind, Hx, Hempty. reflexivity.
Qed.

(** X13.  For the classic address [h:text], with no colon in [h] and a
    [text] that [strtoi_checked] reads as [v], and no address for the X
    protocol: the host is [h], the port is [v] cut to 16 bits, and the X port
    is ten times the port, cut to 16 bits again. *)
Theorem address_with_port instance row c x classic xfield h text v :
  row !! c = Some classic ->
  row !! x = Some xfield ->
  get_string classic = String.append h (String.String ":"%char text) ->
  string_find ":"%char h = None ->
  strtoi_checked text = Some v ->
  non_empty xfield = false ->
  set_instance_ports strtoi_checked instance row c x
  = Ret (mkInstance (mysql_server_uuid instance) h (v mod 65536)
                    ((v mod 65536 * 10) mod 65536),
         true).
Proof.
  intros Hc Hx Huri Hh Hv Hempty.
  destruct (string_find_append ":"%char h text Hh) as (Hfind & Hp & Hr).
  unfold set_instance_ports, classic_address.
  rewrite Hc, Huri, Hfind, Hp, Hr, Hv, Hx, Hempty. reflexivity.
Qed.

(** X14.  When the row has an address for the X protocol, the host of the
    instance is the host of that address, whatever the classic address
    named; the X port is 33060 when the address has no colon, and what
    follows the first colon otherwise.  The port stays the classic one. *)
Theorem x_address_names_the_host instance row c x classic xuri instance1 :
  row !! c = Some classic ->
  row !! x = Some (Some xuri) ->
  xuri <> ""%string ->
  classic_address strtoi_checked instance (get_string classic) = (instance1, true) ->
  (string_find ":"%char xuri = None ->
   set_instance_ports strtoi_checked instance row c x
   = Ret (mkInstance (mysql_server_uuid instance) xuri (port instance1) 33060,
          true))
  /\ (forall h text v,
         xuri = String.append h (String.String ":"%char text) ->
         string_find ":"%char h = None ->
         strtoi_checked text = Some v ->
         set_instance_ports strtoi_checked instance row c x
         = Ret (mkInstance (mysql_server_uuid instance) h (port instance1)
                           (v mod 65536),
                true)).
Proof.
  intros Hc Hx Hne Hclassic.
  assert (Hnon : non_empty (Some xuri) = true) by (now destruct xuri).
  assert (Huuid : mysql_server_uuid instance1 = mysql_server_uuid instance).
  { unfold classic_address in Hclassic.
    destruct (string_find ":"%char (get_string classic)).
    - destruct (strtoi_checked _); now injection Hclassic as <-.
    - now injection Hclassic as <-. }
  unfold set_instance_ports. rewrite Hc, Hclassic, Hx, Hnon.
  cbn [get_string]. unfold x_address. split.
  - intros Hfind. rewrite Hfind. unfold set_xport, set_host. cbn.
    now rewrite Huuid.
  - intros h text v -> Hh Hv.
    destruct (string_find_append ":"%char h text Hh) as (Hfind & Hp & Hr).
    rewrite Hfind, Hp, Hr, Hv. unfold set_xport, set_host, to_uint16. cbn.
    now rewrite Huuid.
Qed.

(** X15.  When [strtoi_checked] refuses the port of the classic address, the
    call returns [false] with the host already replaced and both ports as
    they were, and it does not look at the column of the X protocol. *)
Theorem refused_port_leaves_host_replaced instance row c x classic h text :
  row !! c = Some classic ->
  get_string classic = String.append h (String.String ":"%char text) ->
  string_find ":"%char h = None ->
  strtoi_checked text = None ->
  set_instance_ports strtoi_checked instance row c x
  = Ret (mkInstance (mysql_server_uuid instance) h (port instance) (xport instance),
         false).
Proof.
  intros Hc Huri Hh Hv.
  destruct (string_find_append ":"%char h text Hh) as (Hfind & Hp & Hr).
  unfold set_instance_ports, classic_address.
  rewrite Hc, Huri, Hfind, Hp, Hr, Hv. reflexivity.
Qed.

(** X16.  When [strtoi_checked] never throws, [set_instance_ports] returns
    [true] for every row that has the two columns, whatever they hold; the
    instance keeps its uuid, takes its host from the row, and both its ports
    fit 16 bits. *)
Theorem ports_are_set_when_numbers_parse instance row c x classic xfield :
  (forall text, strtoi_checked text <> None) ->
  row !! c = Some classic ->
  row !! x = Some xfield ->
  exists instance',
    set_instance_ports strtoi_checked instance row c x = Ret (instance', true)
    /\ mysql_server_uuid instance' = mysql_server_uuid instance
    /\ 0 <= port instance' < 65536
    /\ 0 <= xport instance' < 65536
    /\ exists uri rest,
        (uri = get_string classic \/ uri = get_string xfield)
        /\ (uri = host instance'
            \/ uri = String.append (host instance') (String.String ":"%char rest))
        /\ string_find ":"%char (host instance') = None.
Proof.
  intros Htotal Hc Hx. unfold set_instance_ports. rewrite Hc, Hx.
  assert (Hclassic : exists i1,
             classic_address strtoi_checked instance (get_string classic) = (i1, true)
             /\ mysql_server_uuid i1 = mysql_server_uuid instance
             /\ 0 <= port i1 < 65536
             /\ exists rest,
                 (get_string classic = host i1
                  \/ get_string classic
                     = String.append (host i1) (String.String ":"%char rest))
                 /\ string_find ":"%char (host i1) = None).
  { unfold classic_address.
    destruct (string_find ":"%char (get_string classic)) as [p|] eqn:Hfind.
    - destruct (string_find_split _ _ _ Hfind) as [Hsplit Hnone].
      destruct (strtoi_checked (substr_from (get_string classic) (p + 1)))
        as [v|] eqn:Hv; [|now apply Htotal in Hv].
      eexists. split; [reflexivity|]. cbn. split; [reflexivity|].
      split; [apply to_uint16_range|]. eexists. split; [right; exact Hsplit|].
      exact Hnone.
    - eexists. split; [reflexivity|]. cbn. split; [reflexivity|].
      split; [lia|]. exists ""%string. split; [now left|exact Hfind]. }
  destruct Hclassic as (i1 & -> & Huuid & Hport & rest & Hhost & Hnone).
  destruct (non_empty xfield) eqn:Hnon.
  - unfold x_address.
    destruct (string_find ":"%char (get_string xfield)) as [p|] eqn:Hfind.
    + destruct (string_find_split _ _ _ Hfind) as [Hsplit Hnone'].
      destruct (strtoi_checked (substr_from (get_string xfield) (p + 1)))
        as [v|] eqn:Hv; [|now apply Htotal in Hv].
      eexists. split; [reflexivity|]. cbn. split; [assumption|].
      split; [assumption|]. split; [apply to_uint16_range|].
      eexists _, _. split; [right; reflexivity|].
      split; [right; exact Hsplit|exact Hnone'].
    + eexists. split; [reflexivity|]. cbn. split; [assumption|].
      split; [assumption|]. split; [lia|].
      exists (get_string xfield), ""%string.
      split; [now right|]. split; [now left|exact Hfind].
  - eexists. split; [reflexivity|]. cbn. split; [assumption|].
    split; [assumption|]. split; [apply to_uint16_range|].
    exists (get_string classic), rest. split; [now left|]. split; assumption.
Qed.

End AddressesOfARow.


(** *** At a row of two columns *)

Lemma address_without_port_gets_defaults_witness :
  let instance := mkInstance "uuid-1"%string "old"%string 1 2 in
  set_instance_ports (fun _ => Some 0) instance [None; Some ""%string] 0 1
  = Ret (mkInstance "uuid-1"%string ""%string 3306 33060, true).
Proof.
  intros instance.
  apply (address_without_port_gets_defaults (fun _ => Some 0) instance
           [None; Some ""%string] 0 1 None (Some ""%string));
    reflexivity.
Defined.

Lemma address_with_port_witness :
  let instance := mkInstance "uuid-1"%string "old"%string 1 2 in
  let strtoi := fun text => if String.eqb text "6554"%string then Some 6554 else None in
  set_instance_ports strtoi instance [Some "db1:6554"%string; None] 0 1
  = Ret (mkInstance "uuid-1"%string "db1"%string 6554 4, true).
Proof.
  intros instance strtoi.
  apply (address_with_port strtoi instance [Some "db1:6554"%string; None] 0 1
           (Some "db1:6554"%string) None "db1"%string "6554"%string 6554);
    reflexivity.
Defined.

Lemma x_address_names_the_host_witness :
  let instance := mkInstance "uuid-1"%string "old"%string 1 2 in
  let strtoi := fun text => if String.eqb text "3307"%string then Some 3307 else Some 33070 in
  set_instance_ports strtoi instance
                     [Some "db1:3307"%string; Some "db2:33070"%string] 0 1
  = Ret (mkInstance "uuid-1"%string "db2"%string 3307 33070, true).
Proof.
  intros instance strtoi.
  apply (proj2 (x_address_names_the_host strtoi instance
                  [Some "db1:3307"%string; Some "db2:33070"%string] 0 1
                  (Some "db1:3307"%string) "db2:33070"%string
                  (mkInstance "uuid-1"%string "db1"%string 3307 2)
                  eq_refl eq_refl ltac:(discriminate) eq_refl)
               "db2"%string "33070"%string 33070);
    reflexivity.
Defined.

Lemma refused_port_leaves_host_replaced_witness :
  let instance := mkInstance "uuid-1"%string "old"%string 1 2 in
  set_instance_ports (fun _ => None) instance [Some "db1:x"%string] 0 7
  = Ret (mkInstance "uuid-1"%string "db1"%string 1 2, false).
Proof.
  intros instance.
  apply (refused_port_leaves_host_replaced (fun _ => None) instance
           [Some "db1:x"%string] 0 7 (Some "db1:x"%string) "db1"%string "x"%string);
    reflexivity.
Defined.

Lemma ports_are_set_when_numbers_parse_witness :
  let instance := mkInstance "uuid-1"%string "old"%string 1 2 in
  exists instance',
    set_instance_ports (fun _ => Some 70000) instance
                       [Some "db1:70000"%string; None] 0 1
    = Ret (instance', true)
    /\ 0 <= port instance' < 65536
    /\ 0 <= xport instance' < 65536.
Proof.
  intros instance.
  destruct (ports_are_set_when_numbers_parse (fun _ => Some 70000) instance
              [Some "db1:70000"%string; None] 0 1 (Some "db1:70000"%string) None
              ltac:(discriminate) eq_refl eq_refl)
    as (instance' & Hcall & _ & Hport & Hxport & _).
  exists instance'. split; [exact Hcall|]. split; assumption.
Defined.
